(** * widl-grpc: the proto3 emitter [GRPCVisitor] of [src/index.ts]

    A shallow embedding of the visitor that turns a WIDL document into
    Protocol Buffers text, and the properties of its specification.

    The AST classes, the naming helpers and the [accept] methods live in
    the packages [@wapc/widl] and [@wapc/widl-codegen]; what the emitter
    needs from them is declared in the first part of this file. *)

From Stdlib Require Import Ascii.
From stdpp Require Import base option list strings gmap pretty.

Open Scope Z_scope.
Open Scope stdpp_scope.

(** ** The AST of [@wapc/widl/ast], as far as the emitter reads it *)

(** Source positions; the emitter only copies them. *)
Record Location := { loc_start : nat; loc_end : nat }.

Module Name.
Record t := mk { loc : option Location; value : string }.
End Name.

Module StringValue.
Record t := mk { loc : option Location; value : string }.
End StringValue.

Module IntValue.
Record t := mk { loc : option Location; value : Z }.
End IntValue.

(** Default values of parameters and fields; copied, never inspected. *)
Inductive Value :=
| VInt (i : IntValue.t)
| VString (s : StringValue.t)
| VBoolean (b : bool).

(** The interface [Type].  [Named], [ListType], [MapType] and [Optional]
    are its four implementations, told apart by [getKind()]; [Foreign] is
    a node of any other kind that reaches the code under the static type
    [Type], [repr] being the text JavaScript prints for its kind. *)
Inductive Type_ :=
| Named (name : Name.t)
| ListType (type : Type_)
| MapType (keyType valueType : Type_)
| Optional (type : Type_)
| Foreign (repr : string).

(** The property [name] that only [Named] nodes carry: [t.name] is
    [undefined] on every other node. *)
Definition Type_name (t : Type_) : option Name.t :=
  match t with
  | Named n => Some n
  | _ => None
  end.

(** A type built from the four variants only. *)
Fixpoint closed (t : Type_) : bool :=
  match t with
  | Named _ => true
  | ListType e => closed e
  | MapType k v => closed k && closed v
  | Optional e => closed e
  | Foreign _ => false
  end.

(** Modelled from the spec: an annotation of the AST package, reduced to
    what [annotation("fieldnum")] and [convert<FieldNumDirective>()] read:
    its name and the number it carries. *)
Module Annotation.
Record t := mk { name : Name.t; value : Z }.
End Annotation.

(** [interface FieldNumDirective { value: number }] *)
Module FieldNumDirective.
Record t := mk { value : Z }.
End FieldNumDirective.

(** Modelled from the spec: [Annotation.convert<FieldNumDirective>()]. *)
Definition convert (a : Annotation.t) : FieldNumDirective.t :=
  FieldNumDirective.mk (Annotation.value a).

(** Modelled from the spec: the [annotation(name)] method of annotated
    nodes: the first annotation of that name, [undefined] if there is
    none. *)
Definition annotation (annotations : list Annotation.t) (name : string)
  : option Annotation.t :=
  List.find (λ a, bool_decide (Name.value (Annotation.name a) = name)) annotations.

Module ParameterDefinition.
Record t := mk {
  loc : option Location;
  name : Name.t;
  description : option StringValue.t;
  type : Type_;
  default : option Value;
  annotations : list Annotation.t
}.
End ParameterDefinition.

Module FieldDefinition.
Record t := mk {
  loc : option Location;
  name : Name.t;
  description : option StringValue.t;
  type : Type_;
  default : option Value;
  annotations : list Annotation.t
}.
End FieldDefinition.

(** The fourth argument of the constructor, for which the emitter passes
    an empty array, is kept as [interfaces]. *)
Module TypeDefinition.
Record t := mk {
  loc : option Location;
  name : Name.t;
  description : option StringValue.t;
  interfaces : list Name.t;
  annotations : list Annotation.t;
  fields : list FieldDefinition.t
}.
End TypeDefinition.

Module OperationDefinition.
Record t := mk {
  loc : option Location;
  name : Name.t;
  description : option StringValue.t;
  parameters : list ParameterDefinition.t;
  type : Type_;
  annotations : list Annotation.t;
  unary : bool
}.
End OperationDefinition.

Module RoleDefinition.
Record t := mk {
  name : Name.t;
  description : option StringValue.t;
  operations : list OperationDefinition.t
}.
End RoleDefinition.

Module EnumValueDefinition.
Record t := mk {
  name : Name.t;
  description : option StringValue.t;
  index : IntValue.t
}.
End EnumValueDefinition.

Module EnumDefinition.
Record t := mk {
  name : Name.t;
  description : option StringValue.t;
  values : list EnumValueDefinition.t
}.
End EnumDefinition.

Module UnionDefinition.
Record t := mk {
  name : Name.t;
  description : option StringValue.t;
  types : list Type_
}.
End UnionDefinition.

Module NamespaceDefinition.
Record t := mk { name : Name.t }.
End NamespaceDefinition.

Module Document.
Record t := mk {
  namespace : NamespaceDefinition.t;
  roles : list RoleDefinition.t;
  types : list TypeDefinition.t;
  enums : list EnumDefinition.t;
  unions : list UnionDefinition.t
}.
End Document.

(** The traversal context.  Every slot but the configuration is optional:
    the driver fills in the node it is visiting with [clone]. *)
Module Context.
Record t := mk {
  config : list (string * string);
  namespace : option NamespaceDefinition.t;
  role : option RoleDefinition.t;
  operation : option OperationDefinition.t;
  type : option TypeDefinition.t;
  field : option FieldDefinition.t;
  enum : option EnumDefinition.t;
  enumValue : option EnumValueDefinition.t;
  union : option UnionDefinition.t
}.

Definition root (config : list (string * string)) : t :=
  mk config None None None None None None None None.

Definition with_namespace (c : t) (n : NamespaceDefinition.t) : t :=
  mk (config c) (Some n) (role c) (operation c) (type c) (field c)
     (enum c) (enumValue c) (union c).
Definition with_role (c : t) (r : RoleDefinition.t) : t :=
  mk (config c) (namespace c) (Some r) (operation c) (type c) (field c)
     (enum c) (enumValue c) (union c).
Definition with_operation (c : t) (o : OperationDefinition.t) : t :=
  mk (config c) (namespace c) (role c) (Some o) (type c) (field c)
     (enum c) (enumValue c) (union c).
Definition with_type (c : t) (ty : TypeDefinition.t) : t :=
  mk (config c) (namespace c) (role c) (operation c) (Some ty) (field c)
     (enum c) (enumValue c) (union c).
Definition with_field (c : t) (f : FieldDefinition.t) : t :=
  mk (config c) (namespace c) (role c) (operation c) (type c) (Some f)
     (enum c) (enumValue c) (union c).
Definition with_enum (c : t) (e : EnumDefinition.t) : t :=
  mk (config c) (namespace c) (role c) (operation c) (type c) (field c)
     (Some e) (enumValue c) (union c).
Definition with_enumValue (c : t) (v : EnumValueDefinition.t) : t :=
  mk (config c) (namespace c) (role c) (operation c) (type c) (field c)
     (enum c) (Some v) (union c).
Definition with_union (c : t) (u : UnionDefinition.t) : t :=
  mk (config c) (namespace c) (role c) (operation c) (type c) (field c)
     (enum c) (enumValue c) (Some u).
End Context.

(** ** The helpers imported from [@wapc/widl-codegen]

    Their code is not part of this repository; the emitter is verified
    for every implementation of them. *)
Class Codegen := {
  (** [shouldIncludeHandler(context)] *)
  shouldIncludeHandler : Context.t → bool;
  (** [pascalCase(str)] and [snakeCase(str)] *)
  pascalCase : string → string;
  snakeCase : string → string;
  (** [formatComment(prefix, text)]; [text] may be [undefined] *)
  formatComment : string → option StringValue.t → string;
  (** [isVoid(type)] *)
  isVoid : Type_ → bool;
  (** [String.prototype.toUpperCase] *)
  toUpperCase : string → string
}.

(** ** Exceptions and results *)

(** [Error] is what the emitter throws itself; [TypeError] is what the
    runtime throws when a property of [undefined] is read (its message
    depends on the engine). *)
Inductive Exn :=
| Error (message : string)
| TypeError.

Inductive Result (A : Type) :=
| Ok (a : A)
| Err (e : Exn).
Arguments Ok {A} a.
Arguments Err {A} e.

Module Result.
Definition bind {A B} (r : Result A) (k : A → Result B) : Result B :=
  match r with
  | Ok a => k a
  | Err e => Err e
  end.
Definition map {A B} (f : A → B) (r : Result A) : Result B :=
  bind r (λ a, Ok (f a)).
End Result.

(** ** [scalarTypeMap] and [typeSignature] *)

(** [new Map(entries)]: the entries are [set] one after the other. *)
Definition Map_new (entries : list (string * string)) : gmap string string :=
  foldl (λ m kv, <[kv.1 := kv.2]> m) ∅ entries.

Definition scalarTypeEntries : list (string * string) :=
  [ ("i8", "int32");
    ("i16", "int32");
    ("i32", "int32");
    ("i64", "int64");
    ("u8", "uint32");
    ("u16", "uint32");
    ("u32", "uint32");
    ("u64", "uint64");
    ("f32", "float");
    ("f64", "double");
    ("string", "string");
    ("bytes", "bytes");
    ("boolean", "bool");
    ("date", "google.protobuf.Timestamp");
    ("datetime", "google.protobuf.Timestamp");
    ("raw", "google.protobuf.Any") ].

Definition scalarTypeMap : gmap string string := Map_new scalarTypeEntries.

(** JavaScript's [a || b] on an optional string: [undefined] and the empty
    string are falsy. *)
Definition or_else (a : option string) (b : string) : string :=
  match a with
  | Some s => if bool_decide (s = "") then b else s
  | None => b
  end.

Fixpoint typeSignature (type : Type_) : Result string :=
  match type with
  | Named name =>
      Ok (or_else (scalarTypeMap !! Name.value name) (Name.value name))
  | ListType t =>
      Result.bind (typeSignature t) (λ s, Ok ("repeated " +:+ s))
  | MapType keyType valueType =>
      Result.bind (typeSignature keyType) (λ k,
      Result.bind (typeSignature valueType) (λ v,
      Ok ("map<" +:+ k +:+ ", " +:+ v +:+ ">")))
  | Optional t =>
      Result.bind (typeSignature t) (λ s, Ok ("optional " +:+ s))
  | Foreign repr =>
      Err (Error ("unexpected kind: " +:+ repr))
  end.

(** ** The emitter *)

(** Characters that a string literal cannot hold directly. *)
Definition nl : string := String "010"%char "".
Definition dquote : string := String "034"%char "".

(** *** Numbers in template literals

    A number is a double.  Every integer below 2^53 in absolute value is
    one, and [`${n}`] prints its decimal digits.  From 2^53 on, the number
    is the double nearest to the integer, and JavaScript prints the
    fewest digits that read back as that double, padded with zeros up to
    21 digits and in exponent notation beyond. *)

(** The double nearest to a positive integer, ties to even. *)
Definition nearestDouble (a : Z) : Z :=
  let unit := 2 ^ (Z.log2 a - 52) in
  let q := a / unit in
  let r := a mod unit in
  let q := if (unit <? 2 * r) || ((2 * r =? unit) && Z.odd q) then q + 1 else q in
  q * unit.

(** Whether the integer [c] reads back as the double [d]: it lies within
    half the distance to the neighbours of [d], bounds included when the
    mantissa of [d] is even. *)
Definition readsAs (d c : Z) : bool :=
  let unit := 2 ^ (Z.log2 d - 52) in
  let q := d / unit in
  let below := if q =? 2 ^ 52 then unit else 2 * unit in
  let lo := 4 * d - below in
  let hi := 4 * d + 2 * unit in
  if Z.even q then (lo <=? 4 * c) && (4 * c <=? hi)
  else (lo <? 4 * c) && (4 * c <? hi).

(** The multiple of [10^j], for the largest [j] up to [fuel], that reads
    back as [d], the closest to [d] if there are two. *)
Fixpoint shortestDigits (fuel : nat) (d : Z) : Z :=
  match fuel with
  | O => d
  | S fuel' =>
      let p := 10 ^ Z.of_nat fuel in
      let c1 := d / p * p in
      let c2 := c1 + p in
      match readsAs d c1, readsAs d c2 with
      | true, true => if d - c1 <=? c2 - d then c1 else c2
      | true, false => c1
      | false, true => c2
      | false, false => shortestDigits fuel' d
      end
  end.

Fixpoint dropZeros (digits : list ascii) : list ascii :=
  match digits with
  | "0"%char :: digits' => dropZeros digits'
  | _ => digits
  end.

(** [String(d)] for a double [d] that is an integer of at least 2^53. *)
Definition printDouble (d : Z) : string :=
  let all := String.list_ascii_of_string (pretty (shortestDigits 330 d)) in
  let n := length all in
  if (n <=? 21)%nat then String.string_of_list_ascii all
  else
    match reverse (dropZeros (reverse all)) with
    | [] => "0"
    | first :: rest =>
        String first
          ((match rest with
            | [] => ""
            | _ => "." +:+ String.string_of_list_ascii rest
            end) +:+ "e+" +:+ pretty (Z.of_nat (n - 1)))
    end.

(** [String(n)] for an integer of at least 2^53 in absolute value. *)
Definition largeNumber (n : Z) : string :=
  let d := nearestDouble (Z.abs n) in
  let text := if 2 ^ 1024 <=? d then "Infinity" else printDouble d in
  if n <? 0 then "-" +:+ text else text.

(** [`${n}`] for a number whose value is the integer [n]. *)
Definition Number_toString (n : Z) : string :=
  if Z.abs n <? 2 ^ 53 then pretty n else largeNumber n.

(** The visitor object: the text written so far to the writer of
    [BaseVisitor], and the private array [requestTypes]. *)
Module GRPCVisitor.
Record t := mk { writer : string; requestTypes : list TypeDefinition.t }.

(** [new GRPCVisitor(writer)] on a fresh writer. *)
Definition new : t := mk "" [].
End GRPCVisitor.

(** A method either returns or throws; either way the visitor keeps what
    was written and queued up to that point. *)
Inductive Outcome (A : Type) :=
| Done (a : A) (s : GRPCVisitor.t)
| Thrown (e : Exn) (s : GRPCVisitor.t).
Arguments Done {A} a s.
Arguments Thrown {A} e s.

Definition M (A : Type) : Type := GRPCVisitor.t → Outcome A.

Definition state_of {A} (o : Outcome A) : GRPCVisitor.t :=
  match o with
  | Done _ s => s
  | Thrown _ s => s
  end.

Definition returns {A} (o : Outcome A) : bool :=
  match o with
  | Done _ _ => true
  | Thrown _ _ => false
  end.

#[global] Instance M_ret : MRet M := λ A a s, Done a s.
#[global] Instance M_bind : MBind M := λ A B k m s,
  match m s with
  | Done a s' => k a s'
  | Thrown e s' => Thrown e s'
  end.

Definition throw {A} (e : Exn) : M A := λ s, Thrown e s.

Definition lift {A} (r : Result A) : M A :=
  match r with
  | Ok a => mret a
  | Err e => throw e
  end.

(** Reading a property of [o]: a [TypeError] when [o] is [undefined]. *)
Definition deref {A} (o : option A) : M A :=
  match o with
  | Some a => mret a
  | None => throw TypeError
  end.

(** [this.write(code)] *)
Definition write (code : string) : M unit := λ s,
  Done tt (GRPCVisitor.mk (GRPCVisitor.writer s +:+ code) (GRPCVisitor.requestTypes s)).

(** [this.requestTypes.push(t)] *)
Definition push (t : TypeDefinition.t) : M unit := λ s,
  Done tt (GRPCVisitor.mk (GRPCVisitor.writer s) (GRPCVisitor.requestTypes s ++ [t])).

(** [this.requestTypes] *)
Definition getRequestTypes : M (list TypeDefinition.t) := λ s,
  Done (GRPCVisitor.requestTypes s) s.

(** [for (let x of l) { f(x) }] and [l.map((x) => { f(x) })] *)
Fixpoint forEach {A} (f : A → M unit) (l : list A) : M unit :=
  match l with
  | [] => mret tt
  | x :: l => f x;; forEach f l
  end.

Section Emitter.
Context {helpers : Codegen}.

Definition visitDocumentBefore (context : Context.t) : M unit :=
  write ("syntax = " +:+ dquote +:+ "proto3" +:+ dquote +:+ ";" +:+ nl +:+ nl).

Definition visitNamespace (context : Context.t) : M unit :=
  ns ← deref (Context.namespace context);
  write ("package " +:+ Name.value (NamespaceDefinition.name ns) +:+ ";" +:+ nl +:+ nl).

Definition visitRoleBefore (context : Context.t) : M unit :=
  if negb (shouldIncludeHandler context) then mret tt else
  role ← deref (Context.role context);
  write (formatComment "// " (RoleDefinition.description role));;
  write ("service " +:+ Name.value (RoleDefinition.name role) +:+ " {" +:+ nl).

Definition visitRoleAfter (context : Context.t) : M unit :=
  if negb (shouldIncludeHandler context) then mret tt else
  write ("}" +:+ nl +:+ nl).

Definition paramToField (param : ParameterDefinition.t) : FieldDefinition.t :=
  FieldDefinition.mk
    (ParameterDefinition.loc param)
    (ParameterDefinition.name param)
    (ParameterDefinition.description param)
    (ParameterDefinition.type param)
    (ParameterDefinition.default param)
    (ParameterDefinition.annotations param).

Definition convertOperationToType (operation : OperationDefinition.t)
  : TypeDefinition.t :=
  let fields := paramToField <$> OperationDefinition.parameters operation in
  TypeDefinition.mk
    (OperationDefinition.loc operation)
    (Name.mk
       (Name.loc (OperationDefinition.name operation))
       (pascalCase (Name.value (OperationDefinition.name operation)) +:+ "Request"))
    (Some (StringValue.mk
       None
       ("Request for the " +:+
        pascalCase (Name.value (OperationDefinition.name operation)) +:+
        " operation.")))
    []
    (OperationDefinition.annotations operation)
    fields.

Definition visitOperationBefore (context : Context.t) : M unit :=
  if negb (shouldIncludeHandler context) then mret tt else
  oper ← deref (Context.operation context);
  write (formatComment "  // " (OperationDefinition.description oper));;
  write ("  rpc " +:+ pascalCase (Name.value (OperationDefinition.name oper)) +:+ "(");;
  (if OperationDefinition.unary oper then
     p ← deref (OperationDefinition.parameters oper !! 0%nat);
     sig ← lift (typeSignature (ParameterDefinition.type p));
     write sig
   else
     push (convertOperationToType oper);;
     write (pascalCase (Name.value (OperationDefinition.name oper)) +:+ "Request"));;
  write ") returns (";;
  (if isVoid (OperationDefinition.type oper) then
     write "Empty"
   else
     sig ← lift (typeSignature (OperationDefinition.type oper));
     write sig);;
  write (");" +:+ nl).

Definition visitOperationAfter (context : Context.t) : M unit :=
  if negb (shouldIncludeHandler context) then mret tt else
  mret tt.

Definition visitTypeBefore (context : Context.t) : M unit :=
  type ← deref (Context.type context);
  write (formatComment "// " (TypeDefinition.description type));;
  write ("message " +:+ pascalCase (Name.value (TypeDefinition.name type)) +:+ " {" +:+ nl).

Definition visitTypeField (context : Context.t) : M unit :=
  field ← deref (Context.field context);
  match annotation (FieldDefinition.annotations field) "fieldnum" with
  | None =>
      type ← deref (Context.type context);
      throw (Error (Name.value (TypeDefinition.name type) +:+ "." +:+
                    Name.value (FieldDefinition.name field) +:+
                    " requires a @fieldnum"))
  | Some fieldnumAnnotation =>
      let fieldnum := convert fieldnumAnnotation in
      write (formatComment "  // " (FieldDefinition.description field));;
      sig ← lift (typeSignature (FieldDefinition.type field));
      write ("  " +:+ sig +:+ " " +:+
             snakeCase (Name.value (FieldDefinition.name field)) +:+ " = " +:+
             Number_toString (FieldNumDirective.value fieldnum) +:+ ";" +:+ nl)
  end.

Definition visitTypeAfter (context : Context.t) : M unit :=
  write ("}" +:+ nl +:+ nl).

Definition visitEnumBefore (context : Context.t) : M unit :=
  e ← deref (Context.enum context);
  write (formatComment "// " (EnumDefinition.description e));;
  write ("enum " +:+ pascalCase (Name.value (EnumDefinition.name e)) +:+ " {" +:+ nl).

Definition visitEnumValue (context : Context.t) : M unit :=
  ev ← deref (Context.enumValue context);
  write (formatComment "  // " (EnumValueDefinition.description ev));;
  write ("  " +:+ toUpperCase (snakeCase (Name.value (EnumValueDefinition.name ev))) +:+
         " = " +:+ Number_toString (IntValue.value (EnumValueDefinition.index ev)) +:+
         ";" +:+ nl).

Definition visitEnumAfter (context : Context.t) : M unit :=
  write ("}" +:+ nl +:+ nl).

(** The body of the loop of [visitUnion]; [i] is the counter before the
    member is handled. *)
Fixpoint visitUnion_members (i : Z) (types : list Type_) : M unit :=
  match types with
  | [] => mret tt
  | t :: types =>
      let i := i + 1 in
      sig ← lift (typeSignature t);
      name ← deref (Type_name t);
      write ("    " +:+ sig +:+ " " +:+ snakeCase (Name.value name) +:+
             "_value = " +:+ Number_toString i +:+ ";" +:+ nl);;
      visitUnion_members i types
  end.

Definition visitUnion (context : Context.t) : M unit :=
  u ← deref (Context.union context);
  write (formatComment "// " (UnionDefinition.description u));;
  write ("message " +:+ pascalCase (Name.value (UnionDefinition.name u)) +:+ " {" +:+ nl);;
  write ("  oneof oneof {" +:+ nl);;
  visitUnion_members 0 (UnionDefinition.types u);;
  write ("  }" +:+ nl);;
  write ("}" +:+ nl +:+ nl).

(** *** The traversal of the AST package *)

(** Modelled from the spec: [TypeDefinition.accept], which calls the
    type hooks of the visitor around one [visitTypeField] per field, in
    declaration order (section 4.1, step 5). *)
Definition TypeDefinition_accept (type : TypeDefinition.t) (context : Context.t)
  : M unit :=
  visitTypeBefore context;;
  forEach (λ field, visitTypeField (Context.with_field context field))
          (TypeDefinition.fields type);;
  visitTypeAfter context.

Definition visitDocumentAfter (context : Context.t) : M unit :=
  requests ← getRequestTypes;
  forEach (λ request,
             TypeDefinition_accept request (Context.with_type context request))
          requests.

(** Modelled from the spec: [OperationDefinition.accept]: the two
    operation hooks; the parameter hooks in between are not overridden
    by the emitter. *)
Definition OperationDefinition_accept (context : Context.t) : M unit :=
  visitOperationBefore context;;
  visitOperationAfter context.

(** Modelled from the spec: [RoleDefinition.accept]: the role hooks
    around the operations in declaration order (section 4.1, step 3). *)
Definition RoleDefinition_accept (role : RoleDefinition.t) (context : Context.t)
  : M unit :=
  visitRoleBefore context;;
  forEach (λ oper, OperationDefinition_accept (Context.with_operation context oper))
          (RoleDefinition.operations role);;
  visitRoleAfter context.

(** Modelled from the spec: [EnumDefinition.accept] (section 4.1,
    step 6). *)
Definition EnumDefinition_accept (e : EnumDefinition.t) (context : Context.t)
  : M unit :=
  visitEnumBefore context;;
  forEach (λ ev, visitEnumValue (Context.with_enumValue context ev))
          (EnumDefinition.values e);;
  visitEnumAfter context.

(** Modelled from the spec: the primary pass of [Document.accept]:
    syntax line, namespace, roles, types, enums, unions (section 4.1,
    steps 1 to 7). *)
Definition Document_primary (doc : Document.t) (context : Context.t) : M unit :=
  let context := Context.with_namespace context (Document.namespace doc) in
  visitDocumentBefore context;;
  visitNamespace context;;
  forEach (λ role, RoleDefinition_accept role (Context.with_role context role))
          (Document.roles doc);;
  forEach (λ type, TypeDefinition_accept type (Context.with_type context type))
          (Document.types doc);;
  forEach (λ e, EnumDefinition_accept e (Context.with_enum context e))
          (Document.enums doc);;
  forEach (λ u, visitUnion (Context.with_union context u))
          (Document.unions doc).

(** Modelled from the spec: [Document.accept]: the primary pass, then
    [visitDocumentAfter] (section 4.1, step 8). *)
Definition Document_accept (doc : Document.t) (context : Context.t) : M unit :=
  Document_primary doc context;;
  visitDocumentAfter (Context.with_namespace context (Document.namespace doc)).

End Emitter.

(** ** A concrete set of helpers and a sample document

    Used to run the emitter on concrete inputs. *)
Module Sample.

Definition upper (c : ascii) : ascii :=
  let n := nat_of_ascii c in
  if (97 <=? n)%nat && (n <=? 122)%nat then ascii_of_nat (n - 32) else c.

Definition capitalize (s : string) : string :=
  match s with
  | EmptyString => EmptyString
  | String c s => String (upper c) s
  end.

Fixpoint upcase (s : string) : string :=
  match s with
  | EmptyString => EmptyString
  | String c s => String (upper c) (upcase s)
  end.

(** Handlers are generated for the roles listed under [handlerRoles]
    and for operations outside any role. *)
Definition included (context : Context.t) : bool :=
  match Context.role context with
  | None => true
  | Some role =>
      bool_decide (("handlerRoles", Name.value (RoleDefinition.name role))
                     ∈ Context.config context)
  end.

Definition comment (prefix : string) (text : option StringValue.t) : string :=
  match text with
  | None => ""
  | Some t => prefix +:+ StringValue.value t +:+ nl
  end.

Definition void (t : Type_) : bool :=
  match t with
  | Named n => bool_decide (Name.value n = "void")
  | _ => false
  end.

Definition codegen : Codegen := {|
  shouldIncludeHandler := included;
  pascalCase := capitalize;
  snakeCase := id;
  formatComment := comment;
  isVoid := void;
  toUpperCase := upcase
|}.

Definition ident (s : string) : Name.t := Name.mk None s.
Definition named (s : string) : Type_ := Named (ident s).
Definition fieldnum (n : Z) : Annotation.t := Annotation.mk (ident "fieldnum") n.

Definition param (name type : string) (num : Z) : ParameterDefinition.t :=
  ParameterDefinition.mk None (ident name) None (named type) None [fieldnum num].

(** [add(a: i32 @fieldnum(1), b: i32 @fieldnum(2)): i32] *)
Definition add : OperationDefinition.t :=
  OperationDefinition.mk None (ident "add") None
    [param "a" "i32" 1; param "b" "i32" 2] (named "i32") [] false.

(** [ping(): void], an operation without parameters *)
Definition ping : OperationDefinition.t :=
  OperationDefinition.mk None (ident "ping") None [] (named "void") [] false.

(** [echo{msg: string @fieldnum(1)}: string], a unary operation *)
Definition echo : OperationDefinition.t :=
  OperationDefinition.mk None (ident "echo") None
    [param "msg" "string" 1] (named "string") [] true.

Definition calculator : RoleDefinition.t :=
  RoleDefinition.mk (ident "Calculator") None [add; echo].

Definition hidden : RoleDefinition.t :=
  RoleDefinition.mk (ident "Hidden") None [add].

Definition point : TypeDefinition.t :=
  TypeDefinition.mk None (ident "point") None [] []
    [ FieldDefinition.mk None (ident "x") None (named "f64") None [fieldnum 1];
      FieldDefinition.mk None (ident "y") None (Optional (named "f64")) None [fieldnum 2] ].

(** A message whose second field has no [@fieldnum]. *)
Definition broken : TypeDefinition.t :=
  TypeDefinition.mk None (ident "broken") None [] []
    [ FieldDefinition.mk None (ident "x") None (named "f64") None [fieldnum 1];
      FieldDefinition.mk None (ident "y") None (named "f64") None [] ].

Definition shape : UnionDefinition.t :=
  UnionDefinition.mk (ident "shape") None [named "point"; named "string"].

(** A union with a list member. *)
Definition bag : UnionDefinition.t :=
  UnionDefinition.mk (ident "bag") None [named "point"; ListType (named "string")].

Definition config : list (string * string) := [("handlerRoles", "Calculator")].

Definition context : Context.t := Context.root config.

Definition document : Document.t :=
  Document.mk (NamespaceDefinition.mk (ident "pkg.demo"))
    [hidden; calculator] [point] [] [shape].

(** The contexts in which the traversal visits a role and an
    operation. *)
Definition inRole (role : RoleDefinition.t) : Context.t :=
  Context.with_role context role.
Definition inOperation (role : RoleDefinition.t) (oper : OperationDefinition.t)
  : Context.t :=
  Context.with_operation (inRole role) oper.

End Sample.

(** The layers [List] and [Optional] that wrap a type. *)
Inductive Layer := LList | LOptional.

Definition wrap (l : Layer) (t : Type_) : Type_ :=
  match l with
  | LList => ListType t
  | LOptional => Optional t
  end.

Definition keyword (l : Layer) : string :=
  match l with
  | LList => "repeated "
  | LOptional => "optional "
  end.

(** ** The text of the output

    What the hooks write, as functions of the nodes; the theorems below
    relate them to the emitter. *)

(** The visitor after [text] has been written. *)
Definition emit (s : GRPCVisitor.t) (text : string) : GRPCVisitor.t :=
  GRPCVisitor.mk (GRPCVisitor.writer s +:+ text) (GRPCVisitor.requestTypes s).

(** [m] leaves the queue of request types as it is, whether it returns or
    throws. *)
Definition keeps {A} (m : M A) : Prop :=
  ∀ s, GRPCVisitor.requestTypes (state_of (m s)) = GRPCVisitor.requestTypes s.

(** When [m] returns, it has added [q] to the queue of request types. *)
Definition queues {A} (m : M A) (q : list TypeDefinition.t) : Prop :=
  ∀ s a s', m s = Done a s' →
    GRPCVisitor.requestTypes s' = GRPCVisitor.requestTypes s ++ q.

(** [texts.join("")] *)
Definition concatText (texts : list string) : string :=
  foldr String.append "" texts.

Section Text.
Context {helpers : Codegen}.

(** The line of a field whose [fieldnum] annotation is [a] and whose
    type has the signature [sig], after its comment. *)
Definition fieldLine (field : FieldDefinition.t) (a : Annotation.t) (sig : string)
  : string :=
  formatComment "  // " (FieldDefinition.description field) +:+
  "  " +:+ sig +:+ " " +:+ snakeCase (Name.value (FieldDefinition.name field)) +:+
  " = " +:+ Number_toString (Annotation.value a) +:+ ";" +:+ nl.

(** The message of the error for a field without [fieldnum]. *)
Definition requiresFieldnum (type : TypeDefinition.t) (field : FieldDefinition.t)
  : string :=
  Name.value (TypeDefinition.name type) +:+ "." +:+
  Name.value (FieldDefinition.name field) +:+ " requires a @fieldnum".

(** The text written for a field, if it has a [fieldnum] annotation and
    a type with a signature. *)
Definition fieldText (field : FieldDefinition.t) : option string :=
  a ← annotation (FieldDefinition.annotations field) "fieldnum";
  match typeSignature (FieldDefinition.type field) with
  | Ok sig => Some (fieldLine field a sig)
  | Err _ => None
  end.

Definition messageHeader (type : TypeDefinition.t) : string :=
  formatComment "// " (TypeDefinition.description type) +:+
  "message " +:+ pascalCase (Name.value (TypeDefinition.name type)) +:+ " {" +:+ nl.

Definition messageFooter : string := "}" +:+ nl +:+ nl.

(** The message block of a type all of whose fields have a text. *)
Definition messageText (type : TypeDefinition.t) : option string :=
  lines ← mapM fieldText (TypeDefinition.fields type);
  Some (messageHeader type +:+ concatText lines +:+ messageFooter).

(** The signature of a type that has one. *)
Definition resolved (t : Type_) : string :=
  match typeSignature t with
  | Ok sig => sig
  | Err _ => ""
  end.

(** The line of the member [name] of a union, numbered [i]. *)
Definition memberLine (i : Z) (name : Name.t) : string :=
  "    " +:+ resolved (Named name) +:+ " " +:+ snakeCase (Name.value name) +:+
  "_value = " +:+ Number_toString i +:+ ";" +:+ nl.

Definition unionHeader (u : UnionDefinition.t) : string :=
  formatComment "// " (UnionDefinition.description u) +:+
  "message " +:+ pascalCase (Name.value (UnionDefinition.name u)) +:+ " {" +:+ nl +:+
  "  oneof oneof {" +:+ nl.

(** The request type that [visitOperationBefore] queues in a context:
    one for an operation that passes the handler filter and is not
    unary, none otherwise. *)
Definition requested (context : Context.t) : list TypeDefinition.t :=
  if shouldIncludeHandler context then
    match Context.operation context with
    | Some oper =>
        if OperationDefinition.unary oper then [] else [convertOperationToType oper]
    | None => []
    end
  else [].

(** The request types queued by the traversal of a role and of a
    document, in the order the operations are visited. *)
Definition requestedByRole (context : Context.t) (role : RoleDefinition.t)
  : list TypeDefinition.t :=
  oper ← RoleDefinition.operations role;
  requested (Context.with_operation (Context.with_role context role) oper).

Definition requestedByDocument (context : Context.t) (doc : Document.t)
  : list TypeDefinition.t :=
  role ← Document.roles doc;
  requestedByRole (Context.with_namespace context (Document.namespace doc)) role.

End Text.

(** ** Failure, framing and whole blocks *)

(** The kind of the first node of a type, reading from left to right, that
    is none of the four type variants. *)
Fixpoint firstForeign (t : Type_) : option string :=
  match t with
  | Named _ => None
  | ListType e => firstForeign e
  | MapType k v =>
      match firstForeign k with
      | Some repr => Some repr
      | None => firstForeign v
      end
  | Optional e => firstForeign e
  | Foreign repr => Some repr
  end.

Definition toOption {A} (r : Result A) : option A :=
  match r with
  | Ok a => Some a
  | Err _ => None
  end.

(** The visitor [s], had [prefix] been written before everything else. *)
Definition prepend (prefix : string) (s : GRPCVisitor.t) : GRPCVisitor.t :=
  GRPCVisitor.mk (prefix +:+ GRPCVisitor.writer s) (GRPCVisitor.requestTypes s).

Definition prependOutcome {A} (prefix : string) (o : Outcome A) : Outcome A :=
  match o with
  | Done a s => Done a (prepend prefix s)
  | Thrown e s => Thrown e (prepend prefix s)
  end.

(** [m] does not look at the text written so far: it behaves the same
    after any prefix, and leaves the prefix in place. *)
Definition framed {A} (m : M A) : Prop :=
  ∀ prefix s, m (prepend prefix s) = prependOutcome prefix (m s).

(** [m] only appends: whether it returns or throws, the text written
    before and the request types queued before are still there, in
    front. *)
Definition appends {A} (m : M A) : Prop :=
  ∀ s, ∃ text q,
    state_of (m s)
    = GRPCVisitor.mk (GRPCVisitor.writer s +:+ text) (GRPCVisitor.requestTypes s ++ q).

(** The visitor after [text] has been written and [q] queued. *)
Definition grow (s : GRPCVisitor.t) (text : string) (q : list TypeDefinition.t)
  : GRPCVisitor.t :=
  GRPCVisitor.mk (GRPCVisitor.writer s +:+ text) (GRPCVisitor.requestTypes s ++ q).

(** [m] returns on every visitor, having written [text]. *)
Definition writes (m : M unit) (text : string) : Prop :=
  ∀ s, ∃ s', m s = Done tt s' ∧ GRPCVisitor.writer s' = GRPCVisitor.writer s +:+ text.

Section Blocks.
Context {helpers : Codegen}.

(** The request and the response of the [rpc] line of an operation, when
    the types involved have a signature. *)
Definition rpcRequest (oper : OperationDefinition.t) : option string :=
  if OperationDefinition.unary oper then
    p ← OperationDefinition.parameters oper !! 0%nat;
    toOption (typeSignature (ParameterDefinition.type p))
  else Some (pascalCase (Name.value (OperationDefinition.name oper)) +:+ "Request").

Definition rpcResponse (oper : OperationDefinition.t) : option string :=
  if isVoid (OperationDefinition.type oper) then Some "Empty"
  else toOption (typeSignature (OperationDefinition.type oper)).

Definition rpcText (oper : OperationDefinition.t) : option string :=
  request ← rpcRequest oper;
  response ← rpcResponse oper;
  Some (formatComment "  // " (OperationDefinition.description oper) +:+
        "  rpc " +:+ pascalCase (Name.value (OperationDefinition.name oper)) +:+
        "(" +:+ request +:+ ") returns (" +:+ response +:+ ");" +:+ nl).

(** The request type an operation adds to the queue once it has passed
    the handler filter. *)
Definition requestOf (oper : OperationDefinition.t) : list TypeDefinition.t :=
  if OperationDefinition.unary oper then [] else [convertOperationToType oper].

Definition serviceHeader (role : RoleDefinition.t) : string :=
  formatComment "// " (RoleDefinition.description role) +:+
  "service " +:+ Name.value (RoleDefinition.name role) +:+ " {" +:+ nl.

(** The block of a role in the context [context]: nothing when the handler
    filter rejects it. *)
Definition serviceText (context : Context.t) (role : RoleDefinition.t)
  : option string :=
  if shouldIncludeHandler context then
    lines ← mapM rpcText (RoleDefinition.operations role);
    Some (serviceHeader role +:+ concatText lines +:+ "}" +:+ nl +:+ nl)
  else Some "".

Definition enumValueLine (ev : EnumValueDefinition.t) : string :=
  formatComment "  // " (EnumValueDefinition.description ev) +:+
  "  " +:+ toUpperCase (snakeCase (Name.value (EnumValueDefinition.name ev))) +:+
  " = " +:+ Number_toString (IntValue.value (EnumValueDefinition.index ev)) +:+
  ";" +:+ nl.

Definition enumText (e : EnumDefinition.t) : string :=
  formatComment "// " (EnumDefinition.description e) +:+
  "enum " +:+ pascalCase (Name.value (EnumDefinition.name e)) +:+ " {" +:+ nl +:+
  concatText (enumValueLine <$> EnumDefinition.values e) +:+
  "}" +:+ nl +:+ nl.

(** The block of a union all of whose members carry a name. *)
Definition unionText (u : UnionDefinition.t) : option string :=
  names ← mapM Type_name (UnionDefinition.types u);
  Some (unionHeader u +:+
        concatText (imap (λ i name, memberLine (Z.of_nat (S i)) name) names) +:+
        "  }" +:+ nl +:+ "}" +:+ nl +:+ nl).

Definition documentHeader (doc : Document.t) : string :=
  "syntax = " +:+ dquote +:+ "proto3" +:+ dquote +:+ ";" +:+ nl +:+ nl +:+
  "package " +:+ Name.value (NamespaceDefinition.name (Document.namespace doc)) +:+
  ";" +:+ nl +:+ nl.

(** The whole file for a document, visited from the context [context]:
    header, services, messages, enums, unions and request messages. *)
Definition documentText (context : Context.t) (doc : Document.t) : option string :=
  let inner := Context.with_namespace context (Document.namespace doc) in
  services ← mapM (λ role, serviceText (Context.with_role inner role) role)
                  (Document.roles doc);
  messages ← mapM messageText (Document.types doc);
  unions ← mapM unionText (Document.unions doc);
  requests ← mapM messageText (requestedByDocument context doc);
  Some (documentHeader doc +:+
        concatText services +:+
        concatText messages +:+
        concatText (enumText <$> Document.enums doc) +:+
        concatText unions +:+
        concatText requests).

End Blocks.

(** More sample nodes. *)
Module Cases.

(** [enum color { red = 0, blue = 7, none = -1 }] *)
Definition color : EnumDefinition.t :=
  EnumDefinition.mk (Sample.ident "color") None
    [ EnumValueDefinition.mk (Sample.ident "red") None (IntValue.mk None 0);
      EnumValueDefinition.mk (Sample.ident "blue") None (IntValue.mk None 7);
      EnumValueDefinition.mk (Sample.ident "none") None (IntValue.mk None (-1)) ].

(** A unary operation declared without any parameter. *)
Definition bare : OperationDefinition.t :=
  OperationDefinition.mk None (Sample.ident "bare") None [] (Sample.named "i32") [] true.

(** An operation whose return type is a node of another kind. *)
Definition odd : OperationDefinition.t :=
  OperationDefinition.mk None (Sample.ident "odd") None
    [Sample.param "a" "i32" 1] (Foreign "IntValue") [] false.

(** A field with neither a [fieldnum] nor a type of a known kind, and one
    with a [fieldnum] only. *)
Definition nothing : FieldDefinition.t :=
  FieldDefinition.mk None (Sample.ident "n") None (Foreign "IntValue") None [].
Definition untyped : FieldDefinition.t :=
  FieldDefinition.mk None (Sample.ident "u") (Some (StringValue.mk None "doc"))
    (Foreign "IntValue") None [Sample.fieldnum 3].

Definition holder : TypeDefinition.t :=
  TypeDefinition.mk None (Sample.ident "holder") None [] [] [nothing].

(** A union with a member of another kind. *)
Definition strange : UnionDefinition.t :=
  UnionDefinition.mk (Sample.ident "strange") None
    [Sample.named "point"; Foreign "IntValue"; ListType (Sample.named "string")].




(** A field numbered 10^21. *)
Definition huge : FieldDefinition.t :=
  FieldDefinition.mk None (Sample.ident "h") None (Sample.named "i32") None
    [Sample.fieldnum (10 ^ 21)].

(** A second document, with one more operation that needs a request
    type. *)
Definition pinger : RoleDefinition.t :=
  RoleDefinition.mk (Sample.ident "Calculator") None [Sample.ping].

Definition second : Document.t :=
  Document.mk (NamespaceDefinition.mk (Sample.ident "pkg.other")) [pinger] [] [color] [].

End Cases.

(** ** Strings *)

Lemma string_app_assoc (a b c : string) : (a +:+ b) +:+ c = a +:+ (b +:+ c).
Proof.
  induction a as [|x a IH]; [done|].
  change (String x ((a +:+ b) +:+ c) = String x (a +:+ (b +:+ c))).
  by rewrite IH.
Qed.

Lemma string_app_nil_r (a : string) : a +:+ "" = a.
Proof.
  induction a as [|x a IH]; [done|].
  change (String x (a +:+ "") = String x a). by rewrite IH.
Qed.

Lemma Number_toString_safe (n : Z) :
  Z.abs n < 2 ^ 53 → Number_toString n = pretty n.
Proof.
  intros Hsafe. unfold Number_toString.
  by destruct (Z.ltb_spec (Z.abs n) (2 ^ 53)); [|lia].
Qed.

Lemma Number_toString_examples :
  Number_toString 42 = "42" ∧
  Number_toString (-7) = "-7" ∧
  Number_toString (2 ^ 53 - 1) = "9007199254740991" ∧
  Number_toString (2 ^ 53 + 1) = "9007199254740992" ∧
  Number_toString (2 ^ 60) = "1152921504606847000" ∧
  Number_toString (10 ^ 21 - 1) = "1e+21" ∧
  Number_toString (10 ^ 21) = "1e+21" ∧
  Number_toString (-(2 ^ 70)) = "-1.1805916207174113e+21".
Proof. repeat split; vm_compute; reflexivity. Qed.

(** ** The type signature resolver *)

Lemma Map_new_lookup_None (entries : list (string * string)) (k : string) :
  k ∉ entries.*1 → Map_new entries !! k = None.
Proof.
  unfold Map_new. induction entries as [|[k' v] entries IH] using rev_ind.
  - intros _. apply lookup_empty.
  - rewrite fmap_app, foldl_snoc. cbn. intros Hk.
    apply not_elem_of_app in Hk as [Hk Hk'].
    rewrite lookup_insert_ne; [by apply IH|].
    intros ->. apply Hk'. cbn. left.
Qed.

Lemma typeSignature_closed (t : Type_) :
  closed t = true → ∃ s, typeSignature t = Ok s.
Proof.
  induction t as [n|t IH|k IHk v IHv|t IH|r]; cbn; intros Hc.
  - eauto.
  - destruct (IH Hc) as [s ->]. cbn. eauto.
  - apply andb_true_iff in Hc as [Hk Hv].
    destruct (IHk Hk) as [sk ->], (IHv Hv) as [sv ->]. cbn. eauto.
  - destruct (IH Hc) as [s ->]. cbn. eauto.
  - discriminate.
Qed.

Lemma typeSignature_foreign (t : Type_) :
  closed t = false →
  ∃ repr, typeSignature t = Err (Error ("unexpected kind: " +:+ repr)).
Proof.
  induction t as [n|t IH|k IHk v IHv|t IH|r]; cbn; intros Hc.
  - discriminate.
  - destruct (IH Hc) as [r ->]. cbn. eauto.
  - destruct (closed k) eqn:Hk.
    + destruct (typeSignature_closed k Hk) as [sk ->].
      destruct (IHv Hc) as [r ->]. cbn. eauto.
    + destruct (IHk eq_refl) as [r ->]. cbn. eauto.
  - destruct (IH Hc) as [r ->]. cbn. eauto.
  - eauto.
Qed.

Lemma typeSignature_layers (ls : list Layer) (t : Type_) :
  typeSignature (foldr wrap t ls)
  = Result.map (λ s, foldr (λ l r, keyword l +:+ r) s ls) (typeSignature t).
Proof.
  induction ls as [|l ls IH]; cbn.
  - by destruct (typeSignature t).
  - destruct l; cbn; rewrite IH; by destruct (typeSignature t).
Qed.

(** C3: on a [Named] type the resolver returns the entry of the fixed
    table (i8, i16, i32 to int32; i64 to int64; u8, u16, u32 to uint32;
    u64 to uint64; f32 to float; f64 to double; string, bytes unchanged;
    boolean to bool; date, datetime to google.protobuf.Timestamp; raw to
    google.protobuf.Any); the keys are case-sensitive, and a name outside
    the table is returned as it is, without PascalCase. *)
Theorem typeSignature_named :
  (∀ loc, let resolve := λ s, typeSignature (Named (Name.mk loc s)) in
     resolve "i8" = Ok "int32" ∧ resolve "i16" = Ok "int32" ∧
     resolve "i32" = Ok "int32" ∧ resolve "i64" = Ok "int64" ∧
     resolve "u8" = Ok "uint32" ∧ resolve "u16" = Ok "uint32" ∧
     resolve "u32" = Ok "uint32" ∧ resolve "u64" = Ok "uint64" ∧
     resolve "f32" = Ok "float" ∧ resolve "f64" = Ok "double" ∧
     resolve "string" = Ok "string" ∧ resolve "bytes" = Ok "bytes" ∧
     resolve "boolean" = Ok "bool" ∧
     resolve "date" = Ok "google.protobuf.Timestamp" ∧
     resolve "datetime" = Ok "google.protobuf.Timestamp" ∧
     resolve "raw" = Ok "google.protobuf.Any" ∧
     resolve "I32" = Ok "I32" ∧ resolve "String" = Ok "String" ∧
     resolve "myType" = Ok "myType") ∧
  (∀ name : Name.t,
     Name.value name ∉
       ["i8"; "i16"; "i32"; "i64"; "u8"; "u16"; "u32"; "u64"; "f32"; "f64";
        "string"; "bytes"; "boolean"; "date"; "datetime"; "raw"] →
     typeSignature (Named name) = Ok (Name.value name)).
Proof.
  split.
  - intros loc resolve. subst resolve. repeat split; vm_compute; reflexivity.
  - intros name Hout. unfold typeSignature, scalarTypeMap.
    rewrite (Map_new_lookup_None scalarTypeEntries); [done|]. exact Hout.
Qed.

Lemma typeSignature_named_witness :
  typeSignature (Named (Name.mk None "Person")) = Ok "Person".
Proof.
  apply (proj2 typeSignature_named (Name.mk None "Person")).
  cbn. intros Hin. repeat (apply elem_of_cons in Hin as [Hin|Hin]; [discriminate|]).
  by apply elem_of_nil in Hin.
Defined.

(** C4: for types built from the four variants, the resolver returns
    [repeated ] followed by the signature of a list's element,
    [optional ] followed by the signature of an optional's inner type, and
    [map<K, V>] from the signatures of key and value; each layer of
    nesting adds its keyword once, outermost first, as in
    [optional repeated T] for an optional list.  When an inner type has no
    signature, its error is the error of the whole type. *)
Theorem typeSignature_compose (t k v : Type_) :
  (closed t = true → closed k = true → closed v = true →
   ∃ st sk sv,
     typeSignature t = Ok st ∧ typeSignature k = Ok sk ∧ typeSignature v = Ok sv ∧
     typeSignature (ListType t) = Ok ("repeated " +:+ st) ∧
     typeSignature (Optional t) = Ok ("optional " +:+ st) ∧
     typeSignature (MapType k v) = Ok ("map<" +:+ sk +:+ ", " +:+ sv +:+ ">") ∧
     typeSignature (Optional (ListType t)) = Ok ("optional repeated " +:+ st) ∧
     (∀ layers : list Layer,
        typeSignature (foldr wrap t layers)
        = Ok (foldr (λ l r, keyword l +:+ r) st layers))) ∧
  typeSignature (ListType t)
    = Result.map (λ s, "repeated " +:+ s) (typeSignature t) ∧
  typeSignature (Optional t)
    = Result.map (λ s, "optional " +:+ s) (typeSignature t) ∧
  typeSignature (MapType k v)
    = Result.bind (typeSignature k) (λ sk,
      Result.map (λ sv, "map<" +:+ sk +:+ ", " +:+ sv +:+ ">") (typeSignature v)) ∧
  typeSignature (Optional (ListType t))
    = Result.map (λ s, "optional repeated " +:+ s) (typeSignature t) ∧
  (∀ layers : list Layer,
     typeSignature (foldr wrap t layers)
     = Result.map (λ s, foldr (λ l r, keyword l +:+ r) s layers) (typeSignature t)).
Proof.
  split; [|split; [|split; [|split; [|split]]]].
  - intros [st Ht]%typeSignature_closed [sk Hk]%typeSignature_closed
      [sv Hv]%typeSignature_closed.
    exists st, sk, sv. split; [done|]. split; [done|]. split; [done|].
    split; [cbn; by rewrite Ht|].
    split; [cbn; by rewrite Ht|].
    split; [cbn; by rewrite Hk, Hv|].
    split; [cbn; by rewrite Ht|].
    intros layers. by rewrite typeSignature_layers, Ht.
  - apply (typeSignature_layers [LList]).
  - apply (typeSignature_layers [LOptional]).
  - reflexivity.
  - apply (typeSignature_layers [LOptional; LList]).
  - intros layers. apply typeSignature_layers.
Qed.

Lemma typeSignature_compose_witness :
  typeSignature (ListType (Sample.named "i32")) = Ok "repeated int32" ∧
  typeSignature (Optional (Sample.named "i32")) = Ok "optional int32" ∧
  typeSignature (MapType (Sample.named "string") (Sample.named "Person"))
  = Ok "map<string, Person>" ∧
  typeSignature (Optional (ListType (Sample.named "i32")))
  = Ok "optional repeated int32" ∧
  typeSignature (ListType (Optional (ListType (Sample.named "i32"))))
  = Ok "repeated optional repeated int32".
Proof.
  destruct (proj1 (typeSignature_compose (Sample.named "i32")
                     (Sample.named "string") (Sample.named "Person"))
              eq_refl eq_refl eq_refl)
    as (st & sk & sv & Ht & Hk & Hv & Hlist & Hoptional & Hmap & Hboth & Hlayers).
  vm_compute in Ht, Hk, Hv.
  injection Ht as <-. injection Hk as <-. injection Hv as <-.
  split; [exact Hlist|]. split; [exact Hoptional|]. split; [exact Hmap|].
  split; [exact Hboth|]. exact (Hlayers [LList; LOptional; LList]).
Defined.

(** C9: the resolver returns a signature for every type built from
    [Named], [ListType], [MapType] and [Optional]; on a value of another
    kind it throws [unexpected kind: ...], and so it does on every type
    that contains such a value: nothing is substituted for it. *)
Theorem typeSignature_total :
  (∀ t, closed t = true → ∃ s, typeSignature t = Ok s) ∧
  (∀ repr, typeSignature (Foreign repr)
           = Err (Error ("unexpected kind: " +:+ repr))) ∧
  (∀ t, closed t = false →
        ∃ repr, typeSignature t = Err (Error ("unexpected kind: " +:+ repr))).
Proof.
  split; [|split].
  - apply typeSignature_closed.
  - done.
  - apply typeSignature_foreign.
Qed.

Lemma typeSignature_total_witness :
  (∃ s, typeSignature (MapType (Sample.named "string")
                         (Optional (ListType (Sample.named "i64")))) = Ok s) ∧
  (∃ repr, typeSignature (ListType (Foreign "IntValue"))
           = Err (Error ("unexpected kind: " +:+ repr))).
Proof.
  split.
  - apply (proj1 typeSignature_total). reflexivity.
  - apply (proj2 (proj2 typeSignature_total)). reflexivity.
Defined.

(** ** Running the emitter *)

#[global] Arguments annotation : simpl never.
#[global] Arguments typeSignature : simpl never.
#[global] Arguments Number_toString : simpl never.
#[global] Arguments concatText : simpl never.
#[global] Arguments scalarTypeMap : simpl never.

(** Unfolds the monad of the emitter and evaluates as far as the
    hypotheses allow. *)
Ltac run :=
  repeat progress
    (unfold mbind, M_bind, mret, M_ret, throw, lift, deref, write, push,
       getRequestTypes; cbn).

Section Run.
Context {helpers : Codegen}.

Lemma emit_emit s a b : emit (emit s a) b = emit s (a +:+ b).
Proof. unfold emit. cbn. by rewrite string_app_assoc. Qed.

Lemma emit_nil s : emit s "" = s.
Proof. destruct s. unfold emit. cbn. by rewrite string_app_nil_r. Qed.

Lemma write_run code s : write code s = Done tt (emit s code).
Proof. done. Qed.

Lemma bind_Done {A B} (m : M A) (k : A → M B) s a s' :
  m s = Done a s' → (m ≫= k) s = k a s'.
Proof. unfold mbind, M_bind. by intros ->. Qed.

Lemma bind_Thrown {A B} (m : M A) (k : A → M B) s e s' :
  m s = Thrown e s' → (m ≫= k) s = Thrown e s'.
Proof. unfold mbind, M_bind. by intros ->. Qed.

Lemma bind_same_m {A B} (m : M A) (k k' : A → M B) s :
  (∀ a s', k a s' = k' a s') → (m ≫= k) s = (m ≫= k') s.
Proof. intros Hk. unfold mbind, M_bind. by destruct (m s). Qed.

Lemma bind_same_k {A B} (m m' : M A) (k : A → M B) s :
  m s = m' s → (m ≫= k) s = (m' ≫= k) s.
Proof. unfold mbind, M_bind. by intros ->. Qed.

Lemma forEach_cons {A} (f : A → M unit) (x : A) (l : list A) s :
  forEach f (x :: l) s = (f x;; forEach f l) s.
Proof. done. Qed.

Lemma forEach_app {A} (f : A → M unit) (l k : list A) s :
  forEach f (l ++ k) s = (forEach f l;; forEach f k) s.
Proof.
  revert s. induction l as [|x l IH]; intros s; [done|].
  cbn. unfold mbind, M_bind. destruct (f x s) as [[] s1|e s1]; [|done].
  apply IH.
Qed.

(** *** Message fields *)

Lemma visitTypeField_line context field a sig s :
  Context.field context = Some field →
  annotation (FieldDefinition.annotations field) "fieldnum" = Some a →
  typeSignature (FieldDefinition.type field) = Ok sig →
  visitTypeField context s = Done tt (emit s (fieldLine field a sig)).
Proof.
  intros Hf Ha Hsig. unfold visitTypeField. rewrite Hf. run. rewrite Ha, Hsig.
  run. unfold emit, fieldLine. cbn. by rewrite string_app_assoc.
Qed.

Lemma visitTypeField_missing context type field s :
  Context.type context = Some type →
  Context.field context = Some field →
  annotation (FieldDefinition.annotations field) "fieldnum" = None →
  visitTypeField context s = Thrown (Error (requiresFieldnum type field)) s.
Proof.
  intros Ht Hf Ha. unfold visitTypeField. rewrite Hf. run. rewrite Ha, Ht.
  by run.
Qed.

Lemma concatText_cons (x : string) (l : list string) :
  concatText (x :: l) = x +:+ concatText l.
Proof. done. Qed.

Lemma concatText_app (l k : list string) :
  concatText (l ++ k) = concatText l +:+ concatText k.
Proof.
  induction l as [|x l IH]; [done|].
  rewrite <- app_comm_cons, !concatText_cons, IH. by rewrite string_app_assoc.
Qed.

Lemma forEach_fields context fields lines s :
  mapM fieldText fields = Some lines →
  forEach (λ field, visitTypeField (Context.with_field context field)) fields s
  = Done tt (emit s (concatText lines)).
Proof.
  intros Hl. apply mapM_Some in Hl. revert s.
  induction Hl as [|field line fields lines Hline _ IH]; intros s.
  - cbn. by rewrite emit_nil.
  - unfold fieldText in Hline.
    destruct (annotation _ _) as [a|] eqn:Ha; [|done]. cbn in Hline.
    destruct (typeSignature _) as [sig|] eqn:Hsig; [|done].
    injection Hline as <-. rewrite forEach_cons.
    erewrite bind_Done; [|by eapply visitTypeField_line].
    by rewrite IH, emit_emit, concatText_cons.
Qed.

Lemma visitTypeBefore_run context type s :
  Context.type context = Some type →
  visitTypeBefore context s = Done tt (emit s (messageHeader type)).
Proof.
  intros Ht. unfold visitTypeBefore. rewrite Ht. run.
  unfold emit, messageHeader. cbn. by rewrite string_app_assoc.
Qed.

Lemma TypeDefinition_accept_text context type text s :
  Context.type context = Some type →
  messageText type = Some text →
  TypeDefinition_accept type context s = Done tt (emit s text).
Proof.
  intros Ht Htext. unfold messageText in Htext.
  destruct (mapM _ _) as [lines|] eqn:Hlines; [|done]. injection Htext as <-.
  unfold TypeDefinition_accept.
  erewrite bind_Done; [|by apply visitTypeBefore_run].
  erewrite bind_Done; [|by apply forEach_fields].
  unfold visitTypeAfter. by rewrite write_run, !emit_emit.
Qed.

Lemma TypeDefinition_accept_missing context type before field after lines s :
  Context.type context = Some type →
  TypeDefinition.fields type = before ++ field :: after →
  mapM fieldText before = Some lines →
  annotation (FieldDefinition.annotations field) "fieldnum" = None →
  TypeDefinition_accept type context s
  = Thrown (Error (requiresFieldnum type field))
           (emit s (messageHeader type +:+ concatText lines)).
Proof.
  intros Ht Hfields Hlines Ha. unfold TypeDefinition_accept.
  erewrite bind_Done; [|by apply visitTypeBefore_run].
  rewrite <- emit_emit. apply bind_Thrown.
  rewrite Hfields, forEach_app.
  erewrite bind_Done; [|by apply forEach_fields].
  rewrite forEach_cons. apply bind_Thrown.
  by apply visitTypeField_missing.
Qed.

Lemma forEach_requests context requests texts s :
  mapM messageText requests = Some texts →
  forEach (λ request,
             TypeDefinition_accept request (Context.with_type context request))
          requests s
  = Done tt (emit s (concatText texts)).
Proof.
  intros Hl. apply mapM_Some in Hl. revert s.
  induction Hl as [|request text requests texts Htext _ IH]; intros s.
  - cbn. by rewrite emit_nil.
  - rewrite forEach_cons.
    erewrite bind_Done; [|by eapply TypeDefinition_accept_text].
    by rewrite IH, emit_emit, concatText_cons.
Qed.

Lemma visitDocumentAfter_run context texts s :
  mapM messageText (GRPCVisitor.requestTypes s) = Some texts →
  visitDocumentAfter context s = Done tt (emit s (concatText texts)).
Proof.
  intros Htexts. unfold visitDocumentAfter.
  erewrite bind_Done; [|reflexivity]. by apply forEach_requests.
Qed.

(** *** The queue of request types *)

Lemma keeps_ret {A} (a : A) : keeps (mret a).
Proof. by intros s. Qed.

Lemma keeps_throw {A} (e : Exn) : keeps (throw (A:=A) e).
Proof. by intros s. Qed.

Lemma keeps_write code : keeps (write code).
Proof. by intros s. Qed.

Lemma keeps_lift {A} (r : Result A) : keeps (lift r).
Proof. by destruct r; intros s. Qed.

Lemma keeps_deref {A} (o : option A) : keeps (deref o).
Proof. by destruct o; intros s. Qed.

Lemma keeps_bind {A B} (m : M A) (k : A → M B) :
  keeps m → (∀ a, keeps (k a)) → keeps (m ≫= k).
Proof.
  intros Hm Hk s. unfold mbind, M_bind. specialize (Hm s).
  destruct (m s) as [a s1|e s1]; cbn in *; [|done].
  by rewrite Hk.
Qed.

Lemma keeps_forEach {A} (f : A → M unit) (l : list A) :
  (∀ x, keeps (f x)) → keeps (forEach f l).
Proof.
  intros Hf. induction l as [|x l IH]; [apply keeps_ret|].
  apply keeps_bind; [apply Hf|by intros _].
Qed.

Ltac keeps :=
  repeat first
    [ apply keeps_ret | apply keeps_throw | apply keeps_write
    | apply keeps_lift | apply keeps_deref
    | apply keeps_bind; [|intros ?]
    | apply keeps_forEach; intros ?
    | case_match ].

Lemma keeps_visitDocumentBefore context : keeps (visitDocumentBefore context).
Proof. unfold visitDocumentBefore. keeps. Qed.

Lemma keeps_visitNamespace context : keeps (visitNamespace context).
Proof. unfold visitNamespace. keeps. Qed.

Lemma keeps_visitRoleBefore context : keeps (visitRoleBefore context).
Proof. unfold visitRoleBefore. keeps. Qed.

Lemma keeps_visitRoleAfter context : keeps (visitRoleAfter context).
Proof. unfold visitRoleAfter. keeps. Qed.

Lemma keeps_visitOperationAfter context : keeps (visitOperationAfter context).
Proof. unfold visitOperationAfter. keeps. Qed.

Lemma keeps_visitTypeField context : keeps (visitTypeField context).
Proof. unfold visitTypeField. keeps. Qed.

Lemma keeps_TypeDefinition_accept type context :
  keeps (TypeDefinition_accept type context).
Proof.
  unfold TypeDefinition_accept, visitTypeBefore, visitTypeAfter. keeps.
Qed.

Lemma keeps_EnumDefinition_accept e context :
  keeps (EnumDefinition_accept e context).
Proof.
  unfold EnumDefinition_accept, visitEnumBefore, visitEnumValue, visitEnumAfter.
  keeps.
Qed.

Lemma keeps_visitUnion_members i types : keeps (visitUnion_members i types).
Proof.
  revert i. induction types as [|t types IH]; intros i; cbn; keeps. apply IH.
Qed.

Lemma keeps_visitUnion context : keeps (visitUnion context).
Proof. unfold visitUnion. keeps. apply keeps_visitUnion_members. Qed.

Lemma keeps_queues {A} (m : M A) : keeps m → queues m [].
Proof.
  intros Hm s a s' Hrun. specialize (Hm s). rewrite Hrun in Hm.
  by rewrite app_nil_r.
Qed.

Lemma queues_bind {A B} (m : M A) (k : A → M B) q1 q2 :
  queues m q1 → (∀ a, queues (k a) q2) → queues (m ≫= k) (q1 ++ q2).
Proof.
  intros Hm Hk s b s'. unfold mbind, M_bind.
  destruct (m s) as [a s1|e s1] eqn:Hrun; [|done].
  intros Hrun'. rewrite (Hk _ _ _ _ Hrun'), (Hm _ _ _ Hrun). by rewrite app_assoc.
Qed.

Lemma queues_after {A B} (m : M A) (k : A → M B) q :
  keeps m → (∀ a, queues (k a) q) → queues (m ≫= k) q.
Proof.
  intros Hm Hk. apply (queues_bind m k [] q); [by apply keeps_queues|done].
Qed.

Lemma queues_before {A B} (m : M A) (k : A → M B) q :
  queues m q → (∀ a, keeps (k a)) → queues (m ≫= k) q.
Proof.
  intros Hm Hk. rewrite <- (app_nil_r q).
  apply queues_bind; [done|]. intros a. by apply keeps_queues.
Qed.

Lemma queues_forEach {A} (f : A → M unit) (g : A → list TypeDefinition.t) l :
  (∀ x, queues (f x) (g x)) → queues (forEach f l) (l ≫= g).
Proof.
  intros Hf. induction l as [|x l IH].
  - apply keeps_queues, keeps_ret.
  - rewrite bind_cons. change (forEach f (x :: l)) with (f x;; forEach f l).
    apply queues_bind; [apply Hf|by intros _].
Qed.

Lemma visitOperationBefore_state context oper s :
  Context.operation context = Some oper →
  GRPCVisitor.requestTypes (state_of (visitOperationBefore context s))
  = GRPCVisitor.requestTypes s ++ requested context.
Proof.
  intros Hop. unfold visitOperationBefore, requested. rewrite Hop.
  destruct (shouldIncludeHandler context); cbn; [|by rewrite app_nil_r].
  run. destruct (OperationDefinition.unary oper); run.
  - destruct (_ !! _) as [p|]; run; [|by rewrite app_nil_r].
    destruct (typeSignature (ParameterDefinition.type p)); run;
      [|by rewrite app_nil_r].
    destruct (isVoid _); run; [by rewrite app_nil_r|].
    destruct (typeSignature _); run; by rewrite app_nil_r.
  - destruct (isVoid _); run; [done|].
    by destruct (typeSignature _); run.
Qed.

Lemma queues_OperationDefinition_accept context :
  queues (OperationDefinition_accept context) (requested context).
Proof.
  unfold OperationDefinition_accept.
  apply queues_before; [|intros _; apply keeps_visitOperationAfter].
  intros s a s' Hrun.
  destruct (Context.operation context) as [oper|] eqn:Hop.
  - rewrite <- (visitOperationBefore_state context oper s Hop). by rewrite Hrun.
  - revert Hrun. unfold visitOperationBefore, requested. rewrite Hop.
    destruct (shouldIncludeHandler context); run; [done|].
    intros ?. simplify_eq. by rewrite app_nil_r.
Qed.

Lemma queues_RoleDefinition_accept role context :
  queues (RoleDefinition_accept role (Context.with_role context role))
         (requestedByRole context role).
Proof.
  unfold RoleDefinition_accept.
  apply queues_after; [apply keeps_visitRoleBefore|intros _].
  apply queues_before; [|intros _; apply keeps_visitRoleAfter].
  apply (queues_forEach _
    (λ oper, requested (Context.with_operation (Context.with_role context role) oper))).
  intros oper. apply queues_OperationDefinition_accept.
Qed.

Lemma queues_Document_primary doc context :
  queues (Document_primary doc context) (requestedByDocument context doc).
Proof.
  unfold Document_primary.
  apply queues_after; [apply keeps_visitDocumentBefore|intros _].
  apply queues_after; [apply keeps_visitNamespace|intros _].
  apply queues_before.
  { apply (queues_forEach _
      (requestedByRole (Context.with_namespace context (Document.namespace doc)))).
    intros role. apply queues_RoleDefinition_accept. }
  intros _. apply keeps_bind; [|intros _; apply keeps_bind; [|intros _]];
    apply keeps_forEach; intros x.
  - apply keeps_TypeDefinition_accept.
  - apply keeps_EnumDefinition_accept.
  - apply keeps_visitUnion.
Qed.

(** *** Unions *)

Lemma visitUnion_members_cons (name : Name.t) types i s :
  visitUnion_members i (Named name :: types) s
  = visitUnion_members (i + 1) types (emit s (memberLine (i + 1) name)).
Proof.
  cbn [visitUnion_members]. unfold typeSignature at 1. run.
  unfold emit, memberLine, resolved, typeSignature. do 2 f_equal.
Qed.

Lemma visitUnion_members_named (names : list Name.t) i s :
  visitUnion_members i (Named <$> names) s
  = Done tt (emit s (concatText
      (imap (λ j name, memberLine (i + Z.of_nat (S j)) name) names))).
Proof.
  revert i s. induction names as [|name names IH]; intros i s.
  - cbn. by rewrite emit_nil.
  - rewrite fmap_cons, visitUnion_members_cons, IH, emit_emit.
    rewrite imap_cons, concatText_cons. do 4 f_equal.
    apply imap_ext. intros j x _. cbn. f_equal. lia.
Qed.

Lemma visitUnion_start context u s :
  Context.union context = Some u →
  visitUnion context s
  = (visitUnion_members 0 (UnionDefinition.types u);;
     write ("  }" +:+ nl);;
     write ("}" +:+ nl +:+ nl)) (emit s (unionHeader u)).
Proof.
  intros Hu. unfold visitUnion. rewrite Hu. run.
  unfold emit, unionHeader. cbn. by rewrite !string_app_assoc.
Qed.

Lemma visitUnion_named context u names s :
  Context.union context = Some u →
  UnionDefinition.types u = Named <$> names →
  visitUnion context s
  = Done tt (emit s
      (unionHeader u +:+
       concatText (imap (λ i name, memberLine (Z.of_nat (S i)) name) names) +:+
       "  }" +:+ nl +:+ "}" +:+ nl +:+ nl)).
Proof.
  intros Hu Htypes. rewrite (visitUnion_start context u s Hu), Htypes.
  erewrite bind_Done; [|apply visitUnion_members_named].
  erewrite bind_Done; [|apply write_run].
  by rewrite write_run, !emit_emit.
Qed.

Lemma visitUnion_members_app types1 types2 i s :
  visitUnion_members i (types1 ++ types2) s
  = (visitUnion_members i types1;;
     visitUnion_members (i + Z.of_nat (length types1)) types2) s.
Proof.
  revert i s. induction types1 as [|t types1 IH]; intros i s.
  - cbn. by rewrite Z.add_0_r.
  - cbn [app visitUnion_members length]. run.
    destruct (typeSignature t) as [sig|e]; run; [|done].
    destruct (Type_name t) as [name|]; run; [|done].
    rewrite IH. run. by replace (i + 1 + Z.of_nat (length types1))
      with (i + Z.of_nat (S (length types1))) by lia.
Qed.

Lemma visitUnion_members_unnamed t types i s :
  closed t = true → Type_name t = None →
  visitUnion_members i (t :: types) s = Thrown TypeError s.
Proof.
  intros [sig Hsig]%typeSignature_closed Hname.
  cbn [visitUnion_members]. rewrite Hsig, Hname. by run.
Qed.

Lemma visitUnion_members_returns types i s :
  returns (visitUnion_members i types s) = true →
  Forall (λ t, is_Some (Type_name t)) types.
Proof.
  revert i s. induction types as [|t types IH]; intros i s; [by constructor|].
  cbn [visitUnion_members]. run.
  destruct (typeSignature t) as [sig|e]; run; [|done].
  destruct (Type_name t) as [name|] eqn:Hname; run; [|done].
  intros Hrest. constructor; [by rewrite Hname|]. by eapply IH.
Qed.

Lemma named_members types :
  Forall (λ t, is_Some (Type_name t)) types → ∃ names, types = Named <$> names.
Proof.
  induction 1 as [|t types [name Hname] _ [names ->]]; [by exists []|].
  exists (name :: names). destruct t; by simplify_eq/=.
Qed.

(** *** Roles and operations *)

Lemma visitOperationBefore_skip context s :
  shouldIncludeHandler context = false → visitOperationBefore context s = Done tt s.
Proof. intros Hskip. unfold visitOperationBefore. by rewrite Hskip. Qed.

Lemma forEach_skip {A} (f : A → M unit) (l : list A) s :
  (∀ x, x ∈ l → ∀ s, f x s = Done tt s) → forEach f l s = Done tt s.
Proof.
  induction l as [|x l IH]; intros Hf; [done|].
  rewrite forEach_cons. erewrite bind_Done; [|apply Hf; by left].
  apply IH. intros y Hy. apply Hf. by right.
Qed.

Lemma RoleDefinition_accept_skip role context s :
  shouldIncludeHandler context = false →
  (∀ oper, oper ∈ RoleDefinition.operations role →
     shouldIncludeHandler (Context.with_operation context oper) = false) →
  RoleDefinition_accept role context s = Done tt s.
Proof.
  intros Hrole Hops. unfold RoleDefinition_accept, visitRoleBefore, visitRoleAfter.
  rewrite Hrole. cbn. erewrite bind_Done; [|reflexivity].
  erewrite bind_Done; [reflexivity|].
  apply forEach_skip. intros oper Hoper s1. unfold OperationDefinition_accept.
  erewrite bind_Done; [|by apply visitOperationBefore_skip, Hops].
  unfold visitOperationAfter. by rewrite Hops.
Qed.

Lemma forEach_without {A} (f : A → M unit) (before after : list A) x s :
  (∀ s, f x s = Done tt s) →
  forEach f (before ++ x :: after) s = forEach f (before ++ after) s.
Proof.
  intros Hx. rewrite !forEach_app. unfold mbind, M_bind.
  destruct (forEach f before s) as [[] s1|e s1]; [|done].
  rewrite forEach_cons. by erewrite bind_Done; [|apply Hx].
Qed.

Lemma forEach_throws {A} (f : A → M unit) (l : list A) x s :
  x ∈ l → (∀ s, returns (f x s) = false) → returns (forEach f l s) = false.
Proof.
  intros Hx Hthrow. revert s. induction l as [|y l IH]; intros s.
  - by apply elem_of_nil in Hx.
  - rewrite forEach_cons. unfold mbind, M_bind.
    destruct (f y s) as [[] s1|e s1] eqn:Hrun; [|done].
    apply elem_of_cons in Hx as [->|Hx]; [|by apply IH].
    specialize (Hthrow s). by rewrite Hrun in Hthrow.
Qed.

End Run.

(** ** Operations *)

(** C2: for an operation that passes the handler filter, the hook writes
    the comment of the operation and then the line
    [rpc <PascalCase(name)>(<request>) returns (<response>);], indented by
    two spaces and ended by a newline.  The request is the signature of the
    type of the first parameter when the operation is unary, and
    PascalCase(name) followed by [Request] otherwise; the response is
    [Empty] when the return type is void and its signature otherwise.  A
    unary operation queues no request type. *)
Theorem visitOperationBefore_rpc {helpers : Codegen} context oper request response s :
  shouldIncludeHandler context = true →
  Context.operation context = Some oper →
  (if OperationDefinition.unary oper
   then ∃ p, OperationDefinition.parameters oper !! 0%nat = Some p ∧
             typeSignature (ParameterDefinition.type p) = Ok request
   else request
        = pascalCase (Name.value (OperationDefinition.name oper)) +:+ "Request") →
  (if isVoid (OperationDefinition.type oper)
   then response = "Empty"
   else typeSignature (OperationDefinition.type oper) = Ok response) →
  visitOperationBefore context s
  = Done tt (GRPCVisitor.mk
      (GRPCVisitor.writer s +:+
       formatComment "  // " (OperationDefinition.description oper) +:+
       "  rpc " +:+ pascalCase (Name.value (OperationDefinition.name oper)) +:+
       "(" +:+ request +:+ ") returns (" +:+ response +:+ ");" +:+ nl)
      (GRPCVisitor.requestTypes s ++
       if OperationDefinition.unary oper then [] else [convertOperationToType oper])).
Proof.
  intros Hin Hop Hreq Hres. unfold visitOperationBefore. rewrite Hin, Hop. run.
  destruct (OperationDefinition.unary oper).
  - destruct Hreq as (p & -> & ->). run.
    destruct (isVoid _); [subst response|rewrite Hres]; run;
      by rewrite app_nil_r, !string_app_assoc.
  - subst request. run.
    destruct (isVoid _); [subst response|rewrite Hres]; run;
      by rewrite !string_app_assoc.
Qed.

Lemma visitOperationBefore_rpc_witness :
  visitOperationBefore (helpers := Sample.codegen)
    (Sample.inOperation Sample.calculator Sample.add) GRPCVisitor.new
  = Done tt (GRPCVisitor.mk ("  rpc Add(AddRequest) returns (int32);" +:+ nl)
               [convertOperationToType (helpers := Sample.codegen) Sample.add])
  ∧ visitOperationBefore (helpers := Sample.codegen)
    (Sample.inOperation Sample.calculator Sample.echo) GRPCVisitor.new
  = Done tt (GRPCVisitor.mk ("  rpc Echo(string) returns (string);" +:+ nl) []).
Proof.
  split.
  - apply (visitOperationBefore_rpc (helpers := Sample.codegen)
             (Sample.inOperation Sample.calculator Sample.add) Sample.add
             "AddRequest" "int32" GRPCVisitor.new);
      reflexivity.
  - apply (visitOperationBefore_rpc (helpers := Sample.codegen)
             (Sample.inOperation Sample.calculator Sample.echo) Sample.echo
             "string" "string" GRPCVisitor.new);
      try reflexivity.
    exists (Sample.param "msg" "string" 1). split; reflexivity.
Defined.

(** C8, as the code has it: the hook queues a request type for an
    operation exactly when the operation passes the handler filter and its
    [unary] flag is false, whatever the number of its parameters; it queues
    none for a unary operation. *)
Theorem visitOperationBefore_queues {helpers : Codegen} context oper s :
  Context.operation context = Some oper →
  GRPCVisitor.requestTypes (state_of (visitOperationBefore context s))
  = GRPCVisitor.requestTypes s ++
    (if shouldIncludeHandler context && negb (OperationDefinition.unary oper)
     then [convertOperationToType oper] else []).
Proof.
  intros Hop. rewrite (visitOperationBefore_state context oper s Hop).
  unfold requested. rewrite Hop.
  by destruct (shouldIncludeHandler context), (OperationDefinition.unary oper).
Qed.

Lemma visitOperationBefore_queues_witness :
  GRPCVisitor.requestTypes
    (state_of (visitOperationBefore (helpers := Sample.codegen)
                 (Sample.inOperation Sample.calculator Sample.echo) GRPCVisitor.new))
  = [].
Proof.
  apply (visitOperationBefore_queues (helpers := Sample.codegen)
           (Sample.inOperation Sample.calculator Sample.echo) Sample.echo
           GRPCVisitor.new).
  reflexivity.
Defined.

(** C8, as stated, fails: [ping] has no parameter at all, and a request
    type [PingRequest] is queued for it. *)
Lemma request_type_without_parameters :
  (length (OperationDefinition.parameters Sample.ping) ≤ 1)%nat ∧
  GRPCVisitor.requestTypes
    (state_of (visitOperationBefore (helpers := Sample.codegen)
                 (Sample.inOperation Sample.calculator Sample.ping) GRPCVisitor.new))
  = [convertOperationToType (helpers := Sample.codegen) Sample.ping] ∧
  Name.value (TypeDefinition.name
                (convertOperationToType (helpers := Sample.codegen) Sample.ping))
  = "PingRequest".
Proof. split; [cbn; lia|]. split; reflexivity. Qed.

(** ** Messages *)

(** C7: a field without a [fieldnum] annotation makes [visitTypeField]
    throw [<type>.<field> requires a @fieldnum] before it writes anything;
    the traversal of the message stops there, with the header and the
    lines of the earlier fields written and neither a line for that field
    nor the closing brace, and so does [visitDocumentAfter] on a queued
    request type.  A message with such a field never returns.  A field
    with the annotation gets a line that ends in the value of the
    annotation as [`${fieldnum.value}`] prints it: in its decimal digits
    when the value is below 2^53 in absolute value. *)
Theorem fieldnum_required {helpers : Codegen} :
  (∀ context type field s,
     Context.type context = Some type →
     Context.field context = Some field →
     annotation (FieldDefinition.annotations field) "fieldnum" = None →
     visitTypeField context s
     = Thrown (Error (Name.value (TypeDefinition.name type) +:+ "." +:+
                      Name.value (FieldDefinition.name field) +:+
                      " requires a @fieldnum")) s) ∧
  (∀ context type before field after lines s,
     Context.type context = Some type →
     TypeDefinition.fields type = before ++ field :: after →
     mapM fieldText before = Some lines →
     annotation (FieldDefinition.annotations field) "fieldnum" = None →
     TypeDefinition_accept type context s
     = Thrown (Error (requiresFieldnum type field))
              (emit s (messageHeader type +:+ concatText lines))) ∧
  (∀ context type field s,
     Context.type context = Some type →
     field ∈ TypeDefinition.fields type →
     annotation (FieldDefinition.annotations field) "fieldnum" = None →
     returns (TypeDefinition_accept type context s) = false) ∧
  (∀ context request requests before field after lines s,
     GRPCVisitor.requestTypes s = request :: requests →
     TypeDefinition.fields request = before ++ field :: after →
     mapM fieldText before = Some lines →
     annotation (FieldDefinition.annotations field) "fieldnum" = None →
     visitDocumentAfter context s
     = Thrown (Error (requiresFieldnum request field))
              (emit s (messageHeader request +:+ concatText lines))) ∧
  (∀ context field a sig s,
     Context.field context = Some field →
     annotation (FieldDefinition.annotations field) "fieldnum" = Some a →
     typeSignature (FieldDefinition.type field) = Ok sig →
     visitTypeField context s
     = Done tt (emit s
         (formatComment "  // " (FieldDefinition.description field) +:+
          "  " +:+ sig +:+ " " +:+
          snakeCase (Name.value (FieldDefinition.name field)) +:+
          " = " +:+ Number_toString (Annotation.value a) +:+ ";" +:+ nl))) ∧
  (∀ context field a sig s,
     Context.field context = Some field →
     annotation (FieldDefinition.annotations field) "fieldnum" = Some a →
     typeSignature (FieldDefinition.type field) = Ok sig →
     Z.abs (Annotation.value a) < 2 ^ 53 →
     visitTypeField context s
     = Done tt (emit s
         (formatComment "  // " (FieldDefinition.description field) +:+
          "  " +:+ sig +:+ " " +:+
          snakeCase (Name.value (FieldDefinition.name field)) +:+
          " = " +:+ pretty (Annotation.value a) +:+ ";" +:+ nl))).
Proof.
  split; [|split; [|split; [|split; [|split]]]].
  - intros context type field s. apply visitTypeField_missing.
  - intros context type before field after lines s.
    apply TypeDefinition_accept_missing.
  - intros context type field s Htype Hfield Hmissing.
    unfold TypeDefinition_accept.
    erewrite bind_Done; [|by apply visitTypeBefore_run].
    unfold mbind, M_bind.
    destruct (forEach _ _ _) as [[] s1|e s1] eqn:Hrun; [|done].
    assert (returns (forEach
      (λ field0, visitTypeField (Context.with_field context field0))
      (TypeDefinition.fields type) (emit s (messageHeader type))) = false) as Hthrows.
    { apply (forEach_throws _ _ field); [done|]. intros s2.
      by erewrite visitTypeField_missing. }
    by rewrite Hrun in Hthrows.
  - intros context request requests before field after lines s Hqueue Hfields
      Hlines Hmissing.
    unfold visitDocumentAfter. erewrite bind_Done; [|reflexivity].
    rewrite Hqueue, forEach_cons. apply bind_Thrown.
    by eapply TypeDefinition_accept_missing.
  - intros context field a sig s. apply visitTypeField_line.
  - intros context field a sig s Hfield Hnum Hsig Hsafe.
    rewrite (visitTypeField_line context field a sig s Hfield Hnum Hsig).
    unfold fieldLine. by rewrite (Number_toString_safe _ Hsafe).
Qed.

Lemma visitTypeField_huge :
  visitTypeField (helpers := Sample.codegen)
    (Context.with_field Sample.context Cases.huge) GRPCVisitor.new
  = Done tt (emit GRPCVisitor.new ("  int32 h = 1e+21;" +:+ nl)).
Proof. vm_compute. reflexivity. Qed.

Lemma fieldnum_required_witness :
  TypeDefinition_accept (helpers := Sample.codegen)
    Sample.broken (Context.with_type Sample.context Sample.broken) GRPCVisitor.new
  = Thrown (Error "broken.y requires a @fieldnum")
      (emit GRPCVisitor.new
         (messageHeader (helpers := Sample.codegen) Sample.broken +:+
          concatText ["  double x = 1;" +:+ nl])).
Proof.
  apply (proj1 (proj2 (fieldnum_required (helpers := Sample.codegen)))
           (Context.with_type Sample.context Sample.broken) Sample.broken
           [FieldDefinition.mk None (Sample.ident "x") None (Sample.named "f64")
              None [Sample.fieldnum 1]]
           (FieldDefinition.mk None (Sample.ident "y") None (Sample.named "f64")
              None [])
           []).
  - reflexivity.
  - reflexivity.
  - vm_compute. reflexivity.
  - reflexivity.
Defined.

(** ** Unions *)

(** C5: for a union whose members are the named types [names],
    [visitUnion] writes the comment of the union, one message named
    PascalCase(name) that wraps one group [oneof oneof], and inside it one
    line [<signature> <snake_case(name)>_value = <i>;] per member, in
    declaration order, numbered 1, 2, ..., N. *)
Theorem visitUnion_oneof {helpers : Codegen} context u names s :
  Context.union context = Some u →
  UnionDefinition.types u = Named <$> names →
  visitUnion context s
  = Done tt (emit s
      (formatComment "// " (UnionDefinition.description u) +:+
       "message " +:+ pascalCase (Name.value (UnionDefinition.name u)) +:+
       " {" +:+ nl +:+
       "  oneof oneof {" +:+ nl +:+
       concatText
         (imap (λ i name,
                  "    " +:+ resolved (Named name) +:+ " " +:+
                  snakeCase (Name.value name) +:+ "_value = " +:+
                  Number_toString (Z.of_nat (S i)) +:+ ";" +:+ nl)
               names) +:+
       "  }" +:+ nl +:+
       "}" +:+ nl +:+ nl)).
Proof.
  intros Hu Htypes. rewrite (visitUnion_named context u names s Hu Htypes).
  unfold unionHeader, memberLine. by rewrite !string_app_assoc.
Qed.

Lemma visitUnion_oneof_witness :
  visitUnion (helpers := Sample.codegen)
    (Context.with_union Sample.context Sample.shape) GRPCVisitor.new
  = Done tt (emit GRPCVisitor.new
      ("message Shape {" +:+ nl +:+
       "  oneof oneof {" +:+ nl +:+
       concatText
         ["    point point_value = 1;" +:+ nl;
          "    string string_value = 2;" +:+ nl] +:+
       "  }" +:+ nl +:+
       "}" +:+ nl +:+ nl)).
Proof.
  apply (visitUnion_oneof (helpers := Sample.codegen)
           (Context.with_union Sample.context Sample.shape) Sample.shape
           [Sample.ident "point"; Sample.ident "string"] GRPCVisitor.new);
    reflexivity.
Defined.

(** C10: [visitUnion] returns exactly when every member of the union is
    a [Named] type.  At the first member of another variant built from the
    four type variants, the signature of the member resolves, but reading
    its name throws a [TypeError]: the lines of the members before it are
    written, its own line and the closing braces are not. *)
Theorem visitUnion_named_only {helpers : Codegen} context u s :
  Context.union context = Some u →
  (returns (visitUnion context s) = true
   ↔ Forall (λ t, is_Some (Type_name t)) (UnionDefinition.types u)) ∧
  (∀ names t rest,
     UnionDefinition.types u = (Named <$> names) ++ t :: rest →
     closed t = true →
     Type_name t = None →
     (∃ sig, typeSignature t = Ok sig) ∧
     visitUnion context s
     = Thrown TypeError
         (emit s (unionHeader u +:+
                  concatText (imap (λ i name, memberLine (Z.of_nat (S i)) name)
                                   names)))).
Proof.
  intros Hu. split; [split|].
  - rewrite (visitUnion_start context u s Hu). unfold mbind, M_bind.
    destruct (visitUnion_members _ _ _) as [[] s1|e s1] eqn:Hrun; [|done].
    intros _. apply (visitUnion_members_returns _ 0 (emit s (unionHeader u))).
    by rewrite Hrun.
  - intros [names Hnames]%named_members.
    by rewrite (visitUnion_named context u names s Hu Hnames).
  - intros names t rest Htypes Hclosed Hname.
    split; [by apply typeSignature_closed|].
    rewrite (visitUnion_start context u s Hu), Htypes.
    apply bind_Thrown. rewrite visitUnion_members_app.
    erewrite bind_Done; [|apply visitUnion_members_named].
    rewrite emit_emit. by apply visitUnion_members_unnamed.
Qed.

Lemma visitUnion_named_only_witness :
  (∃ sig, typeSignature (ListType (Sample.named "string")) = Ok sig) ∧
  visitUnion (helpers := Sample.codegen)
    (Context.with_union Sample.context Sample.bag) GRPCVisitor.new
  = Thrown TypeError
      (emit GRPCVisitor.new
         (unionHeader (helpers := Sample.codegen) Sample.bag +:+
          concatText
            (imap (λ i name,
                     memberLine (helpers := Sample.codegen) (Z.of_nat (S i)) name)
                  [Sample.ident "point"]))).
Proof.
  apply (proj2 (visitUnion_named_only (helpers := Sample.codegen)
                  (Context.with_union Sample.context Sample.bag) Sample.bag
                  GRPCVisitor.new eq_refl)
           [Sample.ident "point"] (ListType (Sample.named "string")) []);
    reflexivity.
Defined.

(** ** Roles *)

(** C6: when the verdict of the handler filter depends on the
    configuration and the role of the context only, a role that the filter
    rejects leaves the visitor as it was: nothing is written for the role
    or its operations, and no request type is queued.  A document emits
    the same with or without such a role. *)
Theorem excluded_role_emits_nothing {helpers : Codegen} :
  (∀ c c', Context.config c = Context.config c' →
           Context.role c = Context.role c' →
           shouldIncludeHandler c = shouldIncludeHandler c') →
  (∀ role context s,
     shouldIncludeHandler context = false →
     RoleDefinition_accept role context s = Done tt s) ∧
  (∀ namespace before role after types enums unions context s,
     shouldIncludeHandler
       (Context.with_role (Context.with_namespace context namespace) role) = false →
     Document_accept
       (Document.mk namespace (before ++ role :: after) types enums unions) context s
     = Document_accept
         (Document.mk namespace (before ++ after) types enums unions) context s).
Proof.
  intros Hfilter.
  assert (∀ role context s, shouldIncludeHandler context = false →
            RoleDefinition_accept role context s = Done tt s) as Hskip.
  { intros role context s Hout. apply RoleDefinition_accept_skip; [done|].
    intros oper _. by rewrite <- Hout; apply Hfilter. }
  split; [done|].
  intros namespace before role after types enums unions context s Hout.
  unfold Document_accept, Document_primary. cbn.
  apply bind_same_k.
  apply bind_same_m. intros _ s1.
  apply bind_same_m. intros _ s2.
  apply bind_same_k.
  apply forEach_without. intros s3. by apply Hskip.
Qed.

Lemma Sample_included_by_role (c c' : Context.t) :
  Context.config c = Context.config c' →
  Context.role c = Context.role c' →
  Sample.included c = Sample.included c'.
Proof. intros Hconfig Hrole. unfold Sample.included. by rewrite Hconfig, Hrole. Qed.

Lemma excluded_role_emits_nothing_witness :
  RoleDefinition_accept (helpers := Sample.codegen)
    Sample.hidden (Sample.inRole Sample.hidden) GRPCVisitor.new
  = Done tt GRPCVisitor.new.
Proof.
  apply (proj1 (excluded_role_emits_nothing (helpers := Sample.codegen)
                  Sample_included_by_role)).
  reflexivity.
Defined.

(** ** More on the type signature resolver *)

Lemma typeSignature_ListType t :
  typeSignature (ListType t)
  = Result.bind (typeSignature t) (λ s, Ok ("repeated " +:+ s)).
Proof. done. Qed.

Lemma typeSignature_Optional t :
  typeSignature (Optional t)
  = Result.bind (typeSignature t) (λ s, Ok ("optional " +:+ s)).
Proof. done. Qed.

Lemma typeSignature_MapType k v :
  typeSignature (MapType k v)
  = Result.bind (typeSignature k) (λ sk,
    Result.bind (typeSignature v) (λ sv,
    Ok ("map<" +:+ sk +:+ ", " +:+ sv +:+ ">"))).
Proof. done. Qed.

Lemma typeSignature_firstForeign (t : Type_) :
  typeSignature t
  = match firstForeign t with
    | Some repr => Err (Error ("unexpected kind: " +:+ repr))
    | None => Ok (resolved t)
    end.
Proof.
  induction t as [n|t IH|k IHk v IHv|t IH|r]; cbn [firstForeign].
  - done.
  - unfold resolved. rewrite typeSignature_ListType, IH.
    by destruct (firstForeign t).
  - unfold resolved. rewrite typeSignature_MapType, IHk.
    destruct (firstForeign k); [done|]. cbn. rewrite IHv.
    by destruct (firstForeign v).
  - unfold resolved. rewrite typeSignature_Optional, IH.
    by destruct (firstForeign t).
  - done.
Qed.

(** X1: when a type contains nodes of another kind, the error of the
    resolver names the first of them in reading order (the key of a map
    before its value); without such a node the resolver returns a
    signature.  It never throws anything but [unexpected kind]. *)
Theorem typeSignature_reports_first_foreign (t : Type_) :
  typeSignature t
  = match firstForeign t with
    | Some repr => Err (Error ("unexpected kind: " +:+ repr))
    | None => Ok (resolved t)
    end
  ∧ (firstForeign t = None ↔ closed t = true).
Proof.
  split; [apply typeSignature_firstForeign|].
  induction t as [n|t IH|k IHk v IHv|t IH|r]; cbn; try done.
  rewrite andb_true_iff, <- IHk, <- IHv.
  destruct (firstForeign k); intuition congruence.
Qed.

(** X2: resolving a name and then resolving the result as a name again
    gives the same signature: no value of the scalar table is a key that
    maps elsewhere. *)
Theorem typeSignature_named_stable (name : Name.t) (loc : option Location) (s : string) :
  typeSignature (Named name) = Ok s →
  typeSignature (Named (Name.mk loc s)) = Ok s.
Proof.
  destruct name as [l v].
  destruct (decide (v ∈ scalarTypeEntries.*1)) as [Hin|Hout].
  - cbn in Hin.
    repeat (apply elem_of_cons in Hin as [->|Hin];
            [vm_compute; intros [= <-]; reflexivity|]).
    by apply elem_of_nil in Hin.
  - assert (∀ l', typeSignature (Named (Name.mk l' v)) = Ok v) as Hv.
    { intros l'. unfold typeSignature, scalarTypeMap. cbn [Name.value].
      by rewrite (Map_new_lookup_None scalarTypeEntries v Hout). }
    rewrite Hv. intros [= <-]. apply Hv.
Qed.

Lemma typeSignature_named_stable_witness :
  typeSignature (Named (Name.mk None "int32")) = Ok "int32".
Proof.
  apply (typeSignature_named_stable (Name.mk None "i16") None "int32").
  vm_compute. reflexivity.
Defined.

(** ** The writer and the queue only grow *)

Lemma prepend_emit prefix s text :
  emit (prepend prefix s) text = prepend prefix (emit s text).
Proof. unfold emit, prepend. cbn. by rewrite string_app_assoc. Qed.

Lemma framed_ret {A} (a : A) : framed (mret a).
Proof. by intros prefix s. Qed.

Lemma framed_throw {A} (e : Exn) : framed (throw (A:=A) e).
Proof. by intros prefix s. Qed.

Lemma framed_write code : framed (write code).
Proof. intros prefix s. rewrite !write_run. cbn. by rewrite prepend_emit. Qed.

Lemma framed_push t : framed (push t).
Proof. by intros prefix s. Qed.

Lemma framed_getRequestTypes : framed getRequestTypes.
Proof. by intros prefix s. Qed.

Lemma framed_lift {A} (r : Result A) : framed (lift r).
Proof. by destruct r; intros prefix s. Qed.

Lemma framed_deref {A} (o : option A) : framed (deref o).
Proof. by destruct o; intros prefix s. Qed.

Lemma framed_bind {A B} (m : M A) (k : A → M B) :
  framed m → (∀ a, framed (k a)) → framed (m ≫= k).
Proof.
  intros Hm Hk prefix s. unfold mbind, M_bind. rewrite Hm.
  destruct (m s) as [a s1|e s1]; cbn; [apply Hk|done].
Qed.

Lemma framed_forEach {A} (f : A → M unit) (l : list A) :
  (∀ x, framed (f x)) → framed (forEach f l).
Proof.
  intros Hf. induction l as [|x l IH]; [apply framed_ret|].
  apply framed_bind; [apply Hf|by intros _].
Qed.

Ltac framed :=
  repeat first
    [ apply framed_ret | apply framed_throw | apply framed_write
    | apply framed_push | apply framed_getRequestTypes
    | apply framed_lift | apply framed_deref
    | apply framed_bind; [|intros ?]
    | apply framed_forEach; intros ?
    | case_match ].

Lemma appends_keeps_writes {A} (m : M A) :
  (∀ s, ∃ text, state_of (m s) = emit s text) → appends m.
Proof.
  intros Hm s. destruct (Hm s) as [text ->]. exists text, [].
  unfold emit. by rewrite app_nil_r.
Qed.

Lemma appends_ret {A} (a : A) : appends (mret a).
Proof.
  apply appends_keeps_writes. intros s. exists "". cbn. by rewrite emit_nil.
Qed.

Lemma appends_throw {A} (e : Exn) : appends (throw (A:=A) e).
Proof.
  apply appends_keeps_writes. intros s. exists "". cbn. by rewrite emit_nil.
Qed.

Lemma appends_write code : appends (write code).
Proof. apply appends_keeps_writes. intros s. by exists code. Qed.

Lemma appends_push t : appends (push t).
Proof.
  intros s. exists "", [t]. cbn. by rewrite string_app_nil_r.
Qed.

Lemma appends_getRequestTypes : appends getRequestTypes.
Proof.
  apply appends_keeps_writes. intros s. exists "". cbn. by rewrite emit_nil.
Qed.

Lemma appends_lift {A} (r : Result A) : appends (lift r).
Proof. destruct r; [apply appends_ret|apply appends_throw]. Qed.

Lemma appends_deref {A} (o : option A) : appends (deref o).
Proof. destruct o; [apply appends_ret|apply appends_throw]. Qed.

Lemma appends_bind {A B} (m : M A) (k : A → M B) :
  appends m → (∀ a, appends (k a)) → appends (m ≫= k).
Proof.
  intros Hm Hk s. unfold mbind, M_bind.
  destruct (Hm s) as (text1 & q1 & H1).
  destruct (m s) as [a s1|e s1]; cbn in H1; subst s1; cbn.
  - destruct (Hk a (GRPCVisitor.mk (GRPCVisitor.writer s +:+ text1)
                      (GRPCVisitor.requestTypes s ++ q1))) as (text2 & q2 & ->).
    exists (text1 +:+ text2), (q1 ++ q2). cbn.
    by rewrite string_app_assoc, app_assoc.
  - by exists text1, q1.
Qed.

Lemma appends_forEach {A} (f : A → M unit) (l : list A) :
  (∀ x, appends (f x)) → appends (forEach f l).
Proof.
  intros Hf. induction l as [|x l IH]; [apply appends_ret|].
  apply appends_bind; [apply Hf|by intros _].
Qed.

Ltac appends :=
  repeat first
    [ apply appends_ret | apply appends_throw | apply appends_write
    | apply appends_push | apply appends_getRequestTypes
    | apply appends_lift | apply appends_deref
    | apply appends_bind; [|intros ?]
    | apply appends_forEach; intros ?
    | case_match ].

Section Growth.
Context {helpers : Codegen}.

Lemma framed_visitUnion_members i types : framed (visitUnion_members i types).
Proof.
  revert i. induction types as [|t types IH]; intros i; cbn; framed. apply IH.
Qed.

Lemma appends_visitUnion_members i types : appends (visitUnion_members i types).
Proof.
  revert i. induction types as [|t types IH]; intros i; cbn; appends. apply IH.
Qed.

Lemma framed_visitUnion context : framed (visitUnion context).
Proof. unfold visitUnion. framed. apply framed_visitUnion_members. Qed.

Lemma appends_visitUnion context : appends (visitUnion context).
Proof. unfold visitUnion. appends. apply appends_visitUnion_members. Qed.

Lemma framed_visitOperationBefore context : framed (visitOperationBefore context).
Proof. unfold visitOperationBefore. framed. Qed.

Lemma appends_visitOperationBefore context : appends (visitOperationBefore context).
Proof. unfold visitOperationBefore. appends. Qed.

Lemma framed_visitTypeField context : framed (visitTypeField context).
Proof. unfold visitTypeField. framed. Qed.

Lemma framed_TypeDefinition_accept type context :
  framed (TypeDefinition_accept type context).
Proof.
  unfold TypeDefinition_accept, visitTypeBefore, visitTypeField, visitTypeAfter.
  framed.
Qed.

Lemma appends_TypeDefinition_accept type context :
  appends (TypeDefinition_accept type context).
Proof.
  unfold TypeDefinition_accept, visitTypeBefore, visitTypeField, visitTypeAfter.
  appends.
Qed.

Lemma framed_visitDocumentAfter context : framed (visitDocumentAfter context).
Proof.
  unfold visitDocumentAfter.
  apply framed_bind; [apply framed_getRequestTypes|intros requests].
  apply framed_forEach. intros request. apply framed_TypeDefinition_accept.
Qed.

Lemma appends_visitDocumentAfter context : appends (visitDocumentAfter context).
Proof.
  unfold visitDocumentAfter.
  apply appends_bind; [apply appends_getRequestTypes|intros requests].
  apply appends_forEach. intros request. apply appends_TypeDefinition_accept.
Qed.

Lemma framed_RoleDefinition_accept role context :
  framed (RoleDefinition_accept role context).
Proof.
  unfold RoleDefinition_accept, visitRoleBefore, visitRoleAfter,
    OperationDefinition_accept, visitOperationAfter.
  apply framed_bind; [framed|intros _].
  apply framed_bind; [|intros _; framed].
  apply framed_forEach. intros oper.
  apply framed_bind; [apply framed_visitOperationBefore|intros _; framed].
Qed.

Lemma appends_RoleDefinition_accept role context :
  appends (RoleDefinition_accept role context).
Proof.
  unfold RoleDefinition_accept, visitRoleBefore, visitRoleAfter,
    OperationDefinition_accept, visitOperationAfter.
  apply appends_bind; [appends|intros _].
  apply appends_bind; [|intros _; appends].
  apply appends_forEach. intros oper.
  apply appends_bind; [apply appends_visitOperationBefore|intros _; appends].
Qed.

Lemma framed_EnumDefinition_accept e context :
  framed (EnumDefinition_accept e context).
Proof.
  unfold EnumDefinition_accept, visitEnumBefore, visitEnumValue, visitEnumAfter.
  framed.
Qed.

Lemma appends_EnumDefinition_accept e context :
  appends (EnumDefinition_accept e context).
Proof.
  unfold EnumDefinition_accept, visitEnumBefore, visitEnumValue, visitEnumAfter.
  appends.
Qed.

Lemma framed_Document_accept doc context : framed (Document_accept doc context).
Proof.
  unfold Document_accept, Document_primary, visitDocumentBefore, visitNamespace.
  apply framed_bind; [|intros _; apply framed_visitDocumentAfter].
  apply framed_bind; [framed|intros _].
  apply framed_bind; [framed|intros _].
  apply framed_bind;
    [apply framed_forEach; intros x; apply framed_RoleDefinition_accept|intros _].
  apply framed_bind;
    [apply framed_forEach; intros x; apply framed_TypeDefinition_accept|intros _].
  apply framed_bind;
    [apply framed_forEach; intros x; apply framed_EnumDefinition_accept|intros _].
  apply framed_forEach; intros x; apply framed_visitUnion.
Qed.

Lemma appends_Document_accept doc context : appends (Document_accept doc context).
Proof.
  unfold Document_accept, Document_primary, visitDocumentBefore, visitNamespace.
  apply appends_bind; [|intros _; apply appends_visitDocumentAfter].
  apply appends_bind; [appends|intros _].
  apply appends_bind; [appends|intros _].
  apply appends_bind;
    [apply appends_forEach; intros x; apply appends_RoleDefinition_accept|intros _].
  apply appends_bind;
    [apply appends_forEach; intros x; apply appends_TypeDefinition_accept|intros _].
  apply appends_bind;
    [apply appends_forEach; intros x; apply appends_EnumDefinition_accept|intros _].
  apply appends_forEach; intros x; apply appends_visitUnion.
Qed.

End Growth.

(** X3: no hook reads the text written so far.  Run after any text
    [prefix], the hooks of an operation, of a field, of a union and of the
    end of the document, and the traversal of a whole document, do what
    they do on their own, and [prefix] stays in front of what they
    write. *)
Theorem emission_ignores_earlier_text {helpers : Codegen} context prefix s :
  visitOperationBefore context (prepend prefix s)
  = prependOutcome prefix (visitOperationBefore context s) ∧
  visitTypeField context (prepend prefix s)
  = prependOutcome prefix (visitTypeField context s) ∧
  visitUnion context (prepend prefix s)
  = prependOutcome prefix (visitUnion context s) ∧
  visitDocumentAfter context (prepend prefix s)
  = prependOutcome prefix (visitDocumentAfter context s) ∧
  (∀ doc, Document_accept doc context (prepend prefix s)
          = prependOutcome prefix (Document_accept doc context s)).
Proof.
  split; [apply framed_visitOperationBefore|].
  split; [apply framed_visitTypeField|].
  split; [apply framed_visitUnion|].
  split; [apply framed_visitDocumentAfter|].
  intros doc. apply framed_Document_accept.
Qed.

(** X4: emission only appends.  Whether the traversal of a document
    returns or throws, the text and the request types that the visitor
    held before are still there, at the front of what it holds after; the
    same goes for the hook of an operation and for the end of the
    document. *)
Theorem emission_only_appends {helpers : Codegen} context s :
  (∀ doc, ∃ text q,
     state_of (Document_accept doc context s)
     = GRPCVisitor.mk (GRPCVisitor.writer s +:+ text)
                      (GRPCVisitor.requestTypes s ++ q)) ∧
  (∃ text q,
     state_of (visitOperationBefore context s)
     = GRPCVisitor.mk (GRPCVisitor.writer s +:+ text)
                      (GRPCVisitor.requestTypes s ++ q)) ∧
  (∃ text,
     state_of (visitDocumentAfter context s)
     = GRPCVisitor.mk (GRPCVisitor.writer s +:+ text) (GRPCVisitor.requestTypes s)).
Proof.
  split; [intros doc; apply appends_Document_accept|].
  split; [apply appends_visitOperationBefore|].
  destruct (appends_visitDocumentAfter context s) as (text & q & Hs).
  exists text. rewrite Hs. f_equal.
  assert (keeps (visitDocumentAfter context)) as Hkeeps.
  { unfold visitDocumentAfter. apply keeps_bind; [by intros ?|intros requests].
    apply keeps_forEach. intros request. apply keeps_TypeDefinition_accept. }
  specialize (Hkeeps s). rewrite Hs in Hkeeps. exact Hkeeps.
Qed.

(** ** Operations, once more *)

Section Operations.
Context {helpers : Codegen}.

Lemma returns_bind {A B} (m : M A) (k : A → M B) s :
  returns ((m ≫= k) s) = true →
  ∃ a s1, m s = Done a s1 ∧ returns (k a s1) = true.
Proof.
  unfold mbind, M_bind. destruct (m s) as [a s1|e s1]; [eauto|done].
Qed.

Lemma visitOperationBefore_text context oper line s :
  shouldIncludeHandler context = true →
  Context.operation context = Some oper →
  rpcText oper = Some line →
  visitOperationBefore context s
  = Done tt (GRPCVisitor.mk (GRPCVisitor.writer s +:+ line)
                            (GRPCVisitor.requestTypes s ++ requestOf oper)).
Proof.
  intros Hin Hop. unfold rpcText, rpcRequest, rpcResponse, requestOf.
  unfold visitOperationBefore. rewrite Hin, Hop. run.
  destruct (OperationDefinition.unary oper).
  - destruct (_ !! _) as [p|]; [|done]. cbn.
    destruct (typeSignature (ParameterDefinition.type p)) as [req|]; [|done]. cbn.
    destruct (isVoid _); cbn.
    + intros [= <-]. run. by rewrite app_nil_r, !string_app_assoc.
    + destruct (typeSignature _) as [res|]; [|done]. cbn.
      intros [= <-]. run. by rewrite app_nil_r, !string_app_assoc.
  - cbn. destruct (isVoid _); cbn.
    + intros [= <-]. run. by rewrite !string_app_assoc.
    + destruct (typeSignature _) as [res|]; [|done]. cbn.
      intros [= <-]. run. by rewrite !string_app_assoc.
Qed.

Lemma visitOperationBefore_returns context oper s :
  shouldIncludeHandler context = true →
  Context.operation context = Some oper →
  returns (visitOperationBefore context s) = true →
  is_Some (rpcText oper).
Proof.
  intros Hin Hop. unfold rpcText, rpcRequest, rpcResponse.
  unfold visitOperationBefore. rewrite Hin, Hop. run.
  destruct (OperationDefinition.unary oper).
  - destruct (_ !! _) as [p|]; [|done]. run.
    destruct (typeSignature (ParameterDefinition.type p)) as [req|]; [|done]. run.
    destruct (isVoid _); run; [by eauto|].
    destruct (typeSignature _) as [res|]; [|done]. by eauto.
  - run. destruct (isVoid _); run; [by eauto|].
    destruct (typeSignature _) as [res|]; [|done]. by eauto.
Qed.

End Operations.

(** X5: an operation that passes the handler filter is emitted completely
    exactly when its request and its response have a text: a unary
    operation needs a first parameter whose type has a signature, and
    every operation needs a void return type or one with a signature.
    Then the hook writes the comment and the [rpc] line, and queues the
    request type of a non-unary operation; otherwise it throws. *)
Theorem visitOperationBefore_returns_iff {helpers : Codegen} context oper s :
  shouldIncludeHandler context = true →
  Context.operation context = Some oper →
  (returns (visitOperationBefore context s) = true ↔ is_Some (rpcText oper)) ∧
  (∀ line, rpcText oper = Some line →
     visitOperationBefore context s
     = Done tt (GRPCVisitor.mk
         (GRPCVisitor.writer s +:+ line)
         (GRPCVisitor.requestTypes s ++
          if OperationDefinition.unary oper then [] else [convertOperationToType oper]))).
Proof.
  intros Hin Hop. split; [split|].
  - by apply visitOperationBefore_returns.
  - intros [line Hline].
    by rewrite (visitOperationBefore_text context oper line s Hin Hop Hline).
  - intros line Hline. by apply visitOperationBefore_text.
Qed.

Lemma visitOperationBefore_returns_iff_witness :
  returns (visitOperationBefore (helpers := Sample.codegen)
             (Sample.inOperation Sample.calculator Cases.odd) GRPCVisitor.new)
  = true
  ↔ is_Some (rpcText (helpers := Sample.codegen) Cases.odd).
Proof.
  apply (visitOperationBefore_returns_iff (helpers := Sample.codegen)
           (Sample.inOperation Sample.calculator Cases.odd) Cases.odd
           GRPCVisitor.new);
    reflexivity.
Defined.

(** X6: a unary operation declared without parameters makes the hook
    throw a [TypeError] in the middle of the line: the comment and
    [rpc <Name>(] are written, nothing is queued. *)
Theorem unary_without_parameters {helpers : Codegen} context oper s :
  shouldIncludeHandler context = true →
  Context.operation context = Some oper →
  OperationDefinition.unary oper = true →
  OperationDefinition.parameters oper = [] →
  visitOperationBefore context s
  = Thrown TypeError
      (emit s (formatComment "  // " (OperationDefinition.description oper) +:+
               "  rpc " +:+
               pascalCase (Name.value (OperationDefinition.name oper)) +:+ "(")).
Proof.
  intros Hin Hop Hunary Hparams. unfold visitOperationBefore.
  rewrite Hin, Hop. run. rewrite Hunary, Hparams. run.
  unfold emit. cbn. by rewrite string_app_assoc.
Qed.

Lemma unary_without_parameters_witness :
  visitOperationBefore (helpers := Sample.codegen)
    (Sample.inOperation Sample.calculator Cases.bare) GRPCVisitor.new
  = Thrown TypeError (emit GRPCVisitor.new "  rpc Bare(").
Proof.
  apply (unary_without_parameters (helpers := Sample.codegen)
           (Sample.inOperation Sample.calculator Cases.bare) Cases.bare
           GRPCVisitor.new);
    reflexivity.
Defined.

(** X7: when the return type of a non-unary operation is not void and has
    no signature, the hook throws the error of the resolver after it has
    queued the request type and written the line up to [returns (]: the
    queue keeps a request type whose [rpc] line was never finished. *)
Theorem request_queued_before_failure {helpers : Codegen} context oper e s :
  shouldIncludeHandler context = true →
  Context.operation context = Some oper →
  OperationDefinition.unary oper = false →
  isVoid (OperationDefinition.type oper) = false →
  typeSignature (OperationDefinition.type oper) = Err e →
  visitOperationBefore context s
  = Thrown e (GRPCVisitor.mk
      (GRPCVisitor.writer s +:+
       formatComment "  // " (OperationDefinition.description oper) +:+
       "  rpc " +:+ pascalCase (Name.value (OperationDefinition.name oper)) +:+
       "(" +:+ pascalCase (Name.value (OperationDefinition.name oper)) +:+
       "Request" +:+ ") returns (")
      (GRPCVisitor.requestTypes s ++ [convertOperationToType oper])).
Proof.
  intros Hin Hop Hunary Hvoid Hsig. unfold visitOperationBefore.
  rewrite Hin, Hop. run. rewrite Hunary. run. rewrite Hvoid, Hsig. run.
  by rewrite !string_app_assoc.
Qed.

Lemma request_queued_before_failure_witness :
  visitOperationBefore (helpers := Sample.codegen)
    (Sample.inOperation Sample.calculator Cases.odd) GRPCVisitor.new
  = Thrown (Error "unexpected kind: IntValue")
      (GRPCVisitor.mk "  rpc Odd(OddRequest) returns ("
         [convertOperationToType (helpers := Sample.codegen) Cases.odd]).
Proof.
  apply (request_queued_before_failure (helpers := Sample.codegen)
           (Sample.inOperation Sample.calculator Cases.odd) Cases.odd
           (Error "unexpected kind: IntValue") GRPCVisitor.new);
    reflexivity.
Defined.

(** ** Messages, enums and unions, once more *)

Section Sections.
Context {helpers : Codegen}.

Lemma forEach_returns {A} (f : A → M unit) (P : A → Prop) (l : list A) s :
  (∀ x s', returns (f x s') = true → P x) →
  returns (forEach f l s) = true → Forall P l.
Proof.
  intros Hf. revert s. induction l as [|x l IH]; intros s; [by constructor|].
  rewrite forEach_cons. intros ([] & s1 & Hx & Hl)%returns_bind.
  constructor; [|by eapply IH]. apply (Hf x s). by rewrite Hx.
Qed.

Lemma visitTypeField_returns context field s :
  Context.field context = Some field →
  returns (visitTypeField context s) = true → is_Some (fieldText field).
Proof.
  intros Hf. unfold visitTypeField, fieldText. rewrite Hf. run.
  destruct (annotation _ _) as [a|]; cbn.
  - run. destruct (typeSignature _) as [sig|]; [by eauto|done].
  - by destruct (Context.type context).
Qed.

Lemma TypeDefinition_accept_returns context type s :
  returns (TypeDefinition_accept type context s) = true →
  is_Some (messageText type).
Proof.
  unfold TypeDefinition_accept.
  intros ([] & s1 & _ & ([] & s2 & Hfields & _)%returns_bind)%returns_bind.
  unfold messageText.
  assert (is_Some (mapM fieldText (TypeDefinition.fields type))) as [lines ->];
    [|by eauto].
  apply mapM_is_Some.
  apply (forEach_returns
           (λ field, visitTypeField (Context.with_field context field))
           (is_Some ∘ fieldText) _ s1); [|by rewrite Hfields].
  intros field s'. by apply visitTypeField_returns.
Qed.

Lemma visitEnumValue_run context ev s :
  Context.enumValue context = Some ev →
  visitEnumValue context s = Done tt (emit s (enumValueLine ev)).
Proof.
  intros Hev. unfold visitEnumValue. rewrite Hev. run.
  unfold emit, enumValueLine. cbn. by rewrite string_app_assoc.
Qed.

Lemma forEach_enumValues context values s :
  forEach (λ ev, visitEnumValue (Context.with_enumValue context ev)) values s
  = Done tt (emit s (concatText (enumValueLine <$> values))).
Proof.
  revert s. induction values as [|ev values IH]; intros s.
  - cbn. by rewrite emit_nil.
  - rewrite forEach_cons. erewrite bind_Done; [|by apply visitEnumValue_run].
    by rewrite IH, emit_emit, fmap_cons, concatText_cons.
Qed.

Lemma EnumDefinition_accept_text context e s :
  Context.enum context = Some e →
  EnumDefinition_accept e context s = Done tt (emit s (enumText e)).
Proof.
  intros He. unfold EnumDefinition_accept.
  erewrite bind_Done; [|unfold visitEnumBefore; rewrite He; by run].
  erewrite bind_Done; [|apply forEach_enumValues].
  unfold visitEnumAfter. rewrite write_run. unfold emit, enumText. cbn.
  by rewrite !string_app_assoc.
Qed.

Lemma visitUnion_members_unresolved t types e i s :
  typeSignature t = Err e →
  visitUnion_members i (t :: types) s = Thrown e s.
Proof. intros Hsig. cbn [visitUnion_members]. rewrite Hsig. by run. Qed.

Lemma Type_name_Some types names :
  mapM Type_name types = Some names ↔ types = Named <$> names.
Proof.
  rewrite mapM_Some. split.
  - induction 1 as [|t name types names Hname _ IH]; [done|].
    destruct t; simplify_eq/=. by f_equal.
  - intros ->. induction names; by constructor.
Qed.

Lemma visitUnion_text context u text s :
  Context.union context = Some u →
  unionText u = Some text →
  visitUnion context s = Done tt (emit s text).
Proof.
  intros Hu. unfold unionText.
  destruct (mapM _ _) as [names|] eqn:Hnames; [|done]. cbn. intros [= <-].
  apply Type_name_Some in Hnames. by apply visitUnion_named.
Qed.

Lemma visitUnion_returns context u s :
  Context.union context = Some u →
  returns (visitUnion context s) = true → is_Some (unionText u).
Proof.
  intros Hu. rewrite (visitUnion_start context u s Hu).
  intros ([] & s1 & Hrun & _)%returns_bind.
  assert (∃ names, UnionDefinition.types u = Named <$> names) as [names Hnames].
  { apply named_members.
    apply (visitUnion_members_returns _ 0 (emit s (unionHeader u))).
    by rewrite Hrun. }
  apply Type_name_Some in Hnames. unfold unionText. rewrite Hnames. by eauto.
Qed.

End Sections.

(** X8: a field that has its [fieldnum] but whose type has no signature
    makes [visitTypeField] throw the error of the resolver after the
    comment of the field has been written; the line of the field is not
    written. *)
Theorem field_comment_before_failure {helpers : Codegen} context field a e s :
  Context.field context = Some field →
  annotation (FieldDefinition.annotations field) "fieldnum" = Some a →
  typeSignature (FieldDefinition.type field) = Err e →
  visitTypeField context s
  = Thrown e (emit s (formatComment "  // " (FieldDefinition.description field))).
Proof.
  intros Hfield Hnum Hsig. unfold visitTypeField. rewrite Hfield. run.
  rewrite Hnum, Hsig. by run.
Qed.

Lemma field_comment_before_failure_witness :
  visitTypeField (helpers := Sample.codegen)
    (Context.with_field Sample.context Cases.untyped) GRPCVisitor.new
  = Thrown (Error "unexpected kind: IntValue")
      (emit GRPCVisitor.new ("  // doc" +:+ nl)).
Proof.
  apply (field_comment_before_failure (helpers := Sample.codegen)
           (Context.with_field Sample.context Cases.untyped) Cases.untyped
           (Sample.fieldnum 3) (Error "unexpected kind: IntValue") GRPCVisitor.new);
    reflexivity.
Defined.

(** X9: the traversal of a message type returns exactly when every field
    has a [fieldnum] annotation and a type with a signature; it then has
    written the comment, the header, one line per field in declaration
    order and the closing brace.  In every other case it throws. *)
Theorem message_emitted_iff {helpers : Codegen} context type s :
  Context.type context = Some type →
  (returns (TypeDefinition_accept type context s) = true
   ↔ Forall (λ field,
               is_Some (annotation (FieldDefinition.annotations field) "fieldnum") ∧
               is_Some (toOption (typeSignature (FieldDefinition.type field))))
            (TypeDefinition.fields type)) ∧
  (∀ lines, mapM fieldText (TypeDefinition.fields type) = Some lines →
     TypeDefinition_accept type context s
     = Done tt (emit s
         (formatComment "// " (TypeDefinition.description type) +:+
          "message " +:+ pascalCase (Name.value (TypeDefinition.name type)) +:+
          " {" +:+ nl +:+
          concatText lines +:+
          "}" +:+ nl +:+ nl))).
Proof.
  intros Htype.
  assert (∀ field,
    is_Some (fieldText field)
    ↔ is_Some (annotation (FieldDefinition.annotations field) "fieldnum") ∧
      is_Some (toOption (typeSignature (FieldDefinition.type field)))) as Hfield.
  { intros field. unfold fieldText.
    destruct (annotation _ _) as [a|]; cbn.
    - destruct (typeSignature _); cbn; split;
        (intros [x Hx] || intros [[x Hx] [y Hy]]); try done; eauto.
    - split; [intros [x Hx]|intros [[x Hx] _]]; done. }
  split; [split|].
  - intros Hret%TypeDefinition_accept_returns. unfold messageText in Hret.
    destruct (mapM _ _) as [lines|] eqn:Hlines; [|by destruct Hret].
    assert (is_Some (mapM fieldText (TypeDefinition.fields type))) as Hsome
      by (rewrite Hlines; eauto).
    apply mapM_is_Some in Hsome. eapply Forall_impl; [exact Hsome|].
    intros field. apply Hfield.
  - intros Hall.
    assert (is_Some (mapM fieldText (TypeDefinition.fields type))) as [lines Hlines].
    { apply mapM_is_Some. eapply Forall_impl; [exact Hall|].
      intros field. apply Hfield. }
    erewrite TypeDefinition_accept_text; [done|done|].
    unfold messageText. by rewrite Hlines.
  - intros lines Hlines.
    erewrite TypeDefinition_accept_text; [|done|unfold messageText; by rewrite Hlines].
    unfold messageHeader, messageFooter. by rewrite !string_app_assoc.
Qed.

Lemma message_emitted_iff_witness :
  returns (TypeDefinition_accept (helpers := Sample.codegen)
             Cases.holder (Context.with_type Sample.context Cases.holder)
             GRPCVisitor.new) = true
  ↔ Forall (λ field,
              is_Some (annotation (FieldDefinition.annotations field) "fieldnum") ∧
              is_Some (toOption (typeSignature (FieldDefinition.type field))))
           (TypeDefinition.fields Cases.holder).
Proof.
  apply (message_emitted_iff (helpers := Sample.codegen)
           (Context.with_type Sample.context Cases.holder) Cases.holder
           GRPCVisitor.new).
  reflexivity.
Defined.

Lemma mapM_fmap_compose {A B C} (f : B → option C) (g : A → B) (l : list A) :
  mapM f (g <$> l) = mapM (f ∘ g) l.
Proof. induction l as [|x l IH]; [done|]. cbn. by rewrite IH. Qed.

(** X10: the message block of the request type of an operation carries
    the name PascalCase(PascalCase(name) + [Request]), not the name
    PascalCase(name) + [Request] that the [rpc] line refers to:
    [visitTypeBefore] applies PascalCase to the name that
    [convertOperationToType] has built.  The block has the description as
    its comment and one line per parameter that has a [fieldnum] and a
    type with a signature, in declaration order; it is empty for an
    operation without parameters. *)
Theorem request_block {helpers : Codegen} context oper lines s :
  mapM (λ param, fieldText (paramToField param))
       (OperationDefinition.parameters oper) = Some lines →
  TypeDefinition_accept (convertOperationToType oper)
    (Context.with_type context (convertOperationToType oper)) s
  = Done tt (emit s
      (formatComment "// "
         (Some (StringValue.mk None
            ("Request for the " +:+
             pascalCase (Name.value (OperationDefinition.name oper)) +:+
             " operation."))) +:+
       "message " +:+
       pascalCase (pascalCase (Name.value (OperationDefinition.name oper)) +:+
                   "Request") +:+
       " {" +:+ nl +:+
       concatText lines +:+
       "}" +:+ nl +:+ nl)).
Proof.
  intros Hlines.
  rewrite (TypeDefinition_accept_text _ (convertOperationToType oper)
             (messageHeader (convertOperationToType oper) +:+
              concatText lines +:+ messageFooter)); [|done|].
  - unfold messageHeader, messageFooter. cbn. by rewrite ?string_app_assoc.
  - unfold messageText. cbn [convertOperationToType TypeDefinition.fields].
    rewrite mapM_fmap_compose. unfold compose. by rewrite Hlines.
Qed.

Lemma request_block_witness :
  TypeDefinition_accept (helpers := Sample.codegen)
    (convertOperationToType (helpers := Sample.codegen) Sample.ping)
    (Context.with_type Sample.context
       (convertOperationToType (helpers := Sample.codegen) Sample.ping))
    GRPCVisitor.new
  = Done tt (emit GRPCVisitor.new
      ("// Request for the Ping operation." +:+ nl +:+
       "message PingRequest {" +:+ nl +:+
       concatText [] +:+
       "}" +:+ nl +:+ nl)).
Proof.
  apply (request_block (helpers := Sample.codegen) Sample.context Sample.ping []
           GRPCVisitor.new).
  reflexivity.
Defined.

(** X11: the traversal of an enum never throws: it writes the comment,
    [enum <PascalCase(name)> {], one line
    [<UPPER(snake_case(name))> = <index>;] per value in declaration order
    with the index of the value as [`${ev.index.value}`] prints it, and
    the closing brace.  Indices below 2^53 in absolute value are written
    in their decimal digits, as they stand (negative, repeated or out of
    order). *)
Theorem enum_block {helpers : Codegen} context e s :
  Context.enum context = Some e →
  EnumDefinition_accept e context s
  = Done tt (emit s
      (formatComment "// " (EnumDefinition.description e) +:+
       "enum " +:+ pascalCase (Name.value (EnumDefinition.name e)) +:+ " {" +:+ nl +:+
       concatText
         ((λ ev,
             formatComment "  // " (EnumValueDefinition.description ev) +:+
             "  " +:+
             toUpperCase (snakeCase (Name.value (EnumValueDefinition.name ev))) +:+
             " = " +:+
             Number_toString (IntValue.value (EnumValueDefinition.index ev)) +:+
             ";" +:+ nl) <$> EnumDefinition.values e) +:+
       "}" +:+ nl +:+ nl))
  ∧ (Forall (λ ev, Z.abs (IntValue.value (EnumValueDefinition.index ev)) < 2 ^ 53)
            (EnumDefinition.values e) →
     EnumDefinition_accept e context s
     = Done tt (emit s
         (formatComment "// " (EnumDefinition.description e) +:+
          "enum " +:+ pascalCase (Name.value (EnumDefinition.name e)) +:+
          " {" +:+ nl +:+
          concatText
            ((λ ev,
                formatComment "  // " (EnumValueDefinition.description ev) +:+
                "  " +:+
                toUpperCase (snakeCase (Name.value (EnumValueDefinition.name ev))) +:+
                " = " +:+
                pretty (IntValue.value (EnumValueDefinition.index ev)) +:+
                ";" +:+ nl) <$> EnumDefinition.values e) +:+
          "}" +:+ nl +:+ nl))).
Proof.
  intros He. rewrite (EnumDefinition_accept_text context e s He).
  unfold enumText. split; [done|].
  intros Hsafe.
  assert (enumValueLine <$> EnumDefinition.values e
          = (λ ev,
               formatComment "  // " (EnumValueDefinition.description ev) +:+
               "  " +:+
               toUpperCase (snakeCase (Name.value (EnumValueDefinition.name ev))) +:+
               " = " +:+
               pretty (IntValue.value (EnumValueDefinition.index ev)) +:+
               ";" +:+ nl) <$> EnumDefinition.values e) as ->; [|done].
  apply Forall_fmap_ext_1.
  eapply Forall_impl; [exact Hsafe|]. intros ev Hev. unfold enumValueLine.
  by rewrite (Number_toString_safe _ Hev).
Qed.

Lemma enum_block_witness :
  EnumDefinition_accept (helpers := Sample.codegen)
    Cases.color (Context.with_enum Sample.context Cases.color) GRPCVisitor.new
  = Done tt (emit GRPCVisitor.new
      ("enum Color {" +:+ nl +:+
       concatText ["  RED = 0;" +:+ nl; "  BLUE = 7;" +:+ nl; "  NONE = -1;" +:+ nl] +:+
       "}" +:+ nl +:+ nl)).
Proof.
  apply (proj2 (enum_block (helpers := Sample.codegen)
                  (Context.with_enum Sample.context Cases.color) Cases.color
                  GRPCVisitor.new eq_refl)).
  repeat constructor.
Defined.

(** X12: in a union, the signature of a member is resolved before its
    name is read: at the first member whose type has no signature,
    [visitUnion] throws the error of the resolver, not a [TypeError], with
    the header and the lines of the members before it written. *)
Theorem union_member_unresolved {helpers : Codegen} context u names t rest e s :
  Context.union context = Some u →
  UnionDefinition.types u = (Named <$> names) ++ t :: rest →
  typeSignature t = Err e →
  visitUnion context s
  = Thrown e
      (emit s
         (formatComment "// " (UnionDefinition.description u) +:+
          "message " +:+ pascalCase (Name.value (UnionDefinition.name u)) +:+
          " {" +:+ nl +:+
          "  oneof oneof {" +:+ nl +:+
          concatText (imap (λ i name, memberLine (Z.of_nat (S i)) name) names))).
Proof.
  intros Hu Htypes Hsig. rewrite (visitUnion_start context u s Hu), Htypes.
  apply bind_Thrown. rewrite visitUnion_members_app.
  erewrite bind_Done; [|apply visitUnion_members_named].
  rewrite emit_emit.
  rewrite (visitUnion_members_unresolved t rest e _ _ Hsig).
  unfold unionHeader. by rewrite !string_app_assoc.
Qed.

Lemma union_member_unresolved_witness :
  visitUnion (helpers := Sample.codegen)
    (Context.with_union Sample.context Cases.strange) GRPCVisitor.new
  = Thrown (Error "unexpected kind: IntValue")
      (emit GRPCVisitor.new
         ("message Strange {" +:+ nl +:+
          "  oneof oneof {" +:+ nl +:+
          concatText
            (imap (λ i name,
                     memberLine (helpers := Sample.codegen) (Z.of_nat (S i)) name)
                  [Sample.ident "point"]))).
Proof.
  apply (union_member_unresolved (helpers := Sample.codegen)
           (Context.with_union Sample.context Cases.strange) Cases.strange
           [Sample.ident "point"] (Foreign "IntValue")
           [ListType (Sample.named "string")]
           (Error "unexpected kind: IntValue") GRPCVisitor.new);
    reflexivity.
Defined.

(** ** Services and whole documents *)

Section Documents.
Context {helpers : Codegen}.

Lemma grow_grow s a q b r : grow (grow s a q) b r = grow s (a +:+ b) (q ++ r).
Proof. unfold grow. cbn. by rewrite string_app_assoc, app_assoc. Qed.

Lemma grow_nil s : grow s "" [] = s.
Proof. destruct s. unfold grow. cbn. by rewrite string_app_nil_r, app_nil_r. Qed.

Lemma emit_grow s text : emit s text = grow s text [].
Proof. unfold emit, grow. by rewrite app_nil_r. Qed.

Lemma OperationDefinition_accept_text context oper line s :
  shouldIncludeHandler context = true →
  Context.operation context = Some oper →
  rpcText oper = Some line →
  OperationDefinition_accept context s = Done tt (grow s line (requestOf oper)).
Proof.
  intros Hin Hop Hline. unfold OperationDefinition_accept.
  erewrite bind_Done; [|by apply visitOperationBefore_text].
  unfold visitOperationAfter. by rewrite Hin.
Qed.

Lemma forEach_operations context opers lines s :
  (∀ oper, oper ∈ opers →
     shouldIncludeHandler (Context.with_operation context oper) = true) →
  mapM rpcText opers = Some lines →
  forEach (λ oper, OperationDefinition_accept (Context.with_operation context oper))
          opers s
  = Done tt (grow s (concatText lines) (opers ≫= requestOf)).
Proof.
  intros Hin Hlines. apply mapM_Some in Hlines. revert s.
  induction Hlines as [|oper line opers lines Hline _ IH]; intros s.
  - cbn. by rewrite grow_nil.
  - rewrite forEach_cons.
    erewrite bind_Done;
      [|apply OperationDefinition_accept_text; [apply Hin; by left|done|exact Hline]].
    rewrite IH; [|intros o Ho; apply Hin; by right].
    by rewrite grow_grow, concatText_cons, bind_cons.
Qed.

Lemma RoleDefinition_accept_text context role lines s :
  Context.role context = Some role →
  shouldIncludeHandler context = true →
  (∀ oper, oper ∈ RoleDefinition.operations role →
     shouldIncludeHandler (Context.with_operation context oper) = true) →
  mapM rpcText (RoleDefinition.operations role) = Some lines →
  RoleDefinition_accept role context s
  = Done tt (grow s (serviceHeader role +:+ concatText lines +:+ "}" +:+ nl +:+ nl)
               (RoleDefinition.operations role ≫= requestOf)).
Proof.
  intros Hrole Hin Hops Hlines. unfold RoleDefinition_accept.
  erewrite bind_Done;
    [|unfold visitRoleBefore; rewrite Hin, Hrole; run; reflexivity].
  erewrite bind_Done; [|by apply forEach_operations].
  unfold visitRoleAfter. rewrite Hin. cbn. rewrite write_run.
  unfold emit, grow, serviceHeader. cbn. by rewrite !string_app_assoc.
Qed.

Lemma forEach_returns_in {A} (f : A → M unit) (P : A → Prop) (l : list A) s :
  (∀ x s', x ∈ l → returns (f x s') = true → P x) →
  returns (forEach f l s) = true → Forall P l.
Proof.
  revert s. induction l as [|x l IH]; intros s Hf; [by constructor|].
  rewrite forEach_cons. intros ([] & s1 & Hx & Hl)%returns_bind.
  constructor.
  - apply (Hf x s); [by left|]. by rewrite Hx.
  - apply (IH s1); [|done]. intros y s' Hy. apply Hf. by right.
Qed.

Lemma RoleDefinition_accept_returns context role s :
  shouldIncludeHandler context = true →
  (∀ oper, oper ∈ RoleDefinition.operations role →
     shouldIncludeHandler (Context.with_operation context oper) = true) →
  returns (RoleDefinition_accept role context s) = true →
  is_Some (mapM rpcText (RoleDefinition.operations role)).
Proof.
  intros Hin Hops. unfold RoleDefinition_accept.
  intros ([] & s1 & _ & ([] & s2 & Hrun & _)%returns_bind)%returns_bind.
  apply mapM_is_Some.
  apply (forEach_returns_in
    (λ oper, OperationDefinition_accept (Context.with_operation context oper))
    (is_Some ∘ rpcText) _ s1); [|by rewrite Hrun].
  intros oper s' Hoper. unfold OperationDefinition_accept.
  intros ([] & s3 & Hbefore & _)%returns_bind.
  apply (visitOperationBefore_returns (Context.with_operation context oper) oper s');
    [by apply Hops|done|by rewrite Hbefore].
Qed.

(** *** What a traversal writes *)

Lemma writes_bind (m k : M unit) t1 t2 :
  writes m t1 → writes k t2 → writes (m;; k) (t1 +:+ t2).
Proof.
  intros Hm Hk s. destruct (Hm s) as (s1 & Hrun1 & Hw1).
  destruct (Hk s1) as (s2 & Hrun2 & Hw2). exists s2.
  split; [by erewrite bind_Done|]. by rewrite Hw2, Hw1, string_app_assoc.
Qed.

Lemma writes_forEach {A} (f : A → M unit) (l : list A) (texts : list string) :
  Forall2 (λ x text, writes (f x) text) l texts →
  writes (forEach f l) (concatText texts).
Proof.
  induction 1 as [|x text l texts Hx _ IH].
  - intros s. exists s. split; [done|]. by rewrite string_app_nil_r.
  - rewrite concatText_cons. by apply writes_bind.
Qed.

Lemma writes_eq (m : M unit) text text' :
  writes m text → text = text' → writes m text'.
Proof. by intros Hm <-. Qed.

Lemma writes_run (m : M unit) text :
  (∀ s, ∃ q, m s = Done tt (grow s text q)) → writes m text.
Proof. intros Hm s. destruct (Hm s) as [q ->]. by eexists. Qed.

Section Filter.
(** The verdict of the handler filter depends on the configuration and
    on the role of the context only. *)
Hypothesis filter_by_role :
  ∀ c c', Context.config c = Context.config c' →
          Context.role c = Context.role c' →
          shouldIncludeHandler c = shouldIncludeHandler c'.

Lemma writes_RoleDefinition_accept context role text :
  serviceText (Context.with_role context role) role = Some text →
  writes (RoleDefinition_accept role (Context.with_role context role)) text.
Proof.
  unfold serviceText.
  destruct (shouldIncludeHandler (Context.with_role context role)) eqn:Hin.
  - destruct (mapM _ _) as [lines|] eqn:Hlines; [|done]. cbn. intros [= <-].
    apply writes_run. intros s. eexists.
    apply RoleDefinition_accept_text; [done|done| |done].
    intros oper _. by rewrite <- Hin; apply filter_by_role.
  - intros [= <-]. apply writes_run. intros s. exists [].
    rewrite grow_nil. apply RoleDefinition_accept_skip; [done|].
    intros oper _. by rewrite <- Hin; apply filter_by_role.
Qed.

Lemma returns_RoleDefinition_accept context role s :
  returns (RoleDefinition_accept role (Context.with_role context role) s) = true →
  is_Some (serviceText (Context.with_role context role) role).
Proof.
  unfold serviceText.
  destruct (shouldIncludeHandler (Context.with_role context role)) eqn:Hin;
    [|by eauto].
  intros Hret. apply RoleDefinition_accept_returns in Hret as [lines ->];
    [by eauto|done|].
  intros oper _. by rewrite <- Hin; apply filter_by_role.
Qed.

Lemma writes_Document_primary context doc services messages unions :
  let inner := Context.with_namespace context (Document.namespace doc) in
  mapM (λ role, serviceText (Context.with_role inner role) role)
       (Document.roles doc) = Some services →
  mapM messageText (Document.types doc) = Some messages →
  mapM unionText (Document.unions doc) = Some unions →
  writes (Document_primary doc context)
         (documentHeader doc +:+
          concatText services +:+
          concatText messages +:+
          concatText (enumText <$> Document.enums doc) +:+
          concatText unions).
Proof.
  intros inner Hservices Hmessages Hunions. unfold Document_primary.
  eapply writes_eq.
  { apply writes_bind.
    { apply writes_run. intros s. exists []. rewrite <- emit_grow. apply write_run. }
    apply writes_bind.
    { apply writes_run. intros s. exists []. rewrite <- emit_grow.
      unfold visitNamespace. cbn. erewrite bind_Done; [|reflexivity].
      apply write_run. }
    apply writes_bind.
    { apply writes_forEach. apply mapM_Some in Hservices.
      eapply Forall2_impl; [exact Hservices|]. intros role text.
      apply writes_RoleDefinition_accept. }
    apply writes_bind.
    { apply writes_forEach. apply mapM_Some in Hmessages.
      eapply Forall2_impl; [exact Hmessages|]. intros type text Htext.
      apply writes_run. intros s. exists []. rewrite <- emit_grow.
      by apply TypeDefinition_accept_text. }
    apply writes_bind.
    { apply (writes_forEach _ _ (enumText <$> Document.enums doc)).
      apply Forall2_fmap_r, Forall_Forall2_diag, Forall_forall.
      intros e _. apply writes_run. intros s. exists []. rewrite <- emit_grow.
      by apply EnumDefinition_accept_text. }
    apply writes_forEach. apply mapM_Some in Hunions.
    eapply Forall2_impl; [exact Hunions|]. intros u text Htext.
    apply writes_run. intros s. exists []. rewrite <- emit_grow.
    by apply (visitUnion_text _ u). }
  unfold documentHeader. by rewrite !string_app_assoc.
Qed.

Lemma Document_accept_text context doc text :
  documentText context doc = Some text →
  Document_accept doc context GRPCVisitor.new
  = Done tt (GRPCVisitor.mk text (requestedByDocument context doc)).
Proof.
  unfold documentText.
  destruct (mapM _ (Document.roles doc)) as [services|] eqn:Hservices; [|done].
  cbn. destruct (mapM _ (Document.types doc)) as [messages|] eqn:Hmessages; [|done].
  cbn. destruct (mapM _ (Document.unions doc)) as [unions|] eqn:Hunions; [|done].
  cbn. destruct (mapM _ (requestedByDocument context doc)) as [requests|] eqn:Hrequests;
    [|done].
  cbn. intros [= <-].
  destruct (writes_Document_primary context doc services messages unions
              Hservices Hmessages Hunions GRPCVisitor.new) as (s1 & Hrun & Hwriter).
  pose proof (queues_Document_primary doc context _ _ _ Hrun) as Hqueue.
  cbn in Hwriter, Hqueue.
  unfold Document_accept. erewrite bind_Done; [|exact Hrun].
  rewrite (visitDocumentAfter_run _ requests); [|by rewrite Hqueue].
  unfold emit. rewrite Hwriter, Hqueue. by rewrite !string_app_assoc.
Qed.

Lemma Document_accept_returns context doc :
  returns (Document_accept doc context GRPCVisitor.new) = true →
  is_Some (documentText context doc).
Proof.
  unfold Document_accept. intros ([] & s1 & Hprimary & Hafter)%returns_bind.
  pose proof (queues_Document_primary doc context _ _ _ Hprimary) as Hqueue.
  cbn in Hqueue.
  assert (returns (Document_primary doc context GRPCVisitor.new) = true) as Hret
    by (by rewrite Hprimary).
  unfold Document_primary in Hret.
  apply returns_bind in Hret as ([] & sa & _ & Hret).
  apply returns_bind in Hret as ([] & sb & _ & Hret).
  apply returns_bind in Hret as ([] & sc & Hroles & Hret).
  apply returns_bind in Hret as ([] & sd & Htypes & Hret).
  apply returns_bind in Hret as ([] & se & _ & Hunions).
  unfold visitDocumentAfter in Hafter.
  apply returns_bind in Hafter as (requests & s2 & Hget & Hrequests).
  unfold getRequestTypes in Hget. injection Hget as <- <-.
  set (inner := Context.with_namespace context (Document.namespace doc)) in *.
  assert (is_Some (mapM (λ role, serviceText (Context.with_role inner role) role)
                        (Document.roles doc))) as [services Hs].
  { apply mapM_is_Some.
    eapply (forEach_returns _ _ _ sb); [|by rewrite Hroles].
    intros role s'. apply returns_RoleDefinition_accept. }
  assert (is_Some (mapM messageText (Document.types doc))) as [messages Hm].
  { apply mapM_is_Some.
    eapply (forEach_returns _ _ _ sc); [|by rewrite Htypes].
    intros type s'. apply TypeDefinition_accept_returns. }
  assert (is_Some (mapM unionText (Document.unions doc))) as [unions Hu].
  { apply mapM_is_Some.
    eapply (forEach_returns _ _ _ se); [|exact Hunions].
    intros u s'. by apply visitUnion_returns. }
  assert (is_Some (mapM messageText (requestedByDocument context doc)))
    as [requests Hr].
  { apply mapM_is_Some. rewrite <- Hqueue.
    eapply (forEach_returns _ _ _ s1); [|exact Hrequests].
    intros type s'. apply TypeDefinition_accept_returns. }
  unfold documentText. fold inner. rewrite Hs, Hm, Hu, Hr. by eauto.
Qed.

End Filter.
End Documents.

(** X13: a role that passes the handler filter, with operations that pass
    it too and have a text, is written as the comment of the role, the
    line [service <name> {] with the name of the role as it stands (no
    PascalCase), one [rpc] line per operation in declaration order, and
    the closing brace; the request types of its non-unary operations are
    queued in the same order. *)
Theorem service_block {helpers : Codegen} context role lines s :
  Context.role context = Some role →
  shouldIncludeHandler context = true →
  (∀ oper, oper ∈ RoleDefinition.operations role →
     shouldIncludeHandler (Context.with_operation context oper) = true) →
  mapM rpcText (RoleDefinition.operations role) = Some lines →
  RoleDefinition_accept role context s
  = Done tt (GRPCVisitor.mk
      (GRPCVisitor.writer s +:+
       formatComment "// " (RoleDefinition.description role) +:+
       "service " +:+ Name.value (RoleDefinition.name role) +:+ " {" +:+ nl +:+
       concatText lines +:+
       "}" +:+ nl +:+ nl)
      (GRPCVisitor.requestTypes s ++
       (convertOperationToType <$>
          filter (λ oper, OperationDefinition.unary oper = false)
                 (RoleDefinition.operations role)))).
Proof.
  intros Hrole Hin Hops Hlines.
  rewrite (RoleDefinition_accept_text context role lines s Hrole Hin Hops Hlines).
  assert (RoleDefinition.operations role ≫= requestOf
          = convertOperationToType <$>
              filter (λ oper, OperationDefinition.unary oper = false)
                     (RoleDefinition.operations role)) as ->.
  { clear. induction (RoleDefinition.operations role) as [|oper opers IH]; [done|].
    rewrite bind_cons, filter_cons, IH. unfold requestOf.
    destruct (OperationDefinition.unary oper); by case_decide. }
  unfold grow, serviceHeader. by rewrite !string_app_assoc.
Qed.

Lemma service_block_witness :
  RoleDefinition_accept (helpers := Sample.codegen)
    Sample.calculator (Sample.inRole Sample.calculator) GRPCVisitor.new
  = Done tt (GRPCVisitor.mk
      ("" +:+ "" +:+
       "service " +:+ "Calculator" +:+ " {" +:+ nl +:+
       concatText ["  rpc Add(AddRequest) returns (int32);" +:+ nl;
                   "  rpc Echo(string) returns (string);" +:+ nl] +:+
       "}" +:+ nl +:+ nl)
      ([] ++
       (convertOperationToType (helpers := Sample.codegen) <$>
          filter (λ oper, OperationDefinition.unary oper = false)
                 (RoleDefinition.operations Sample.calculator)))).
Proof.
  apply (service_block (helpers := Sample.codegen)
           (Sample.inRole Sample.calculator) Sample.calculator
           ["  rpc Add(AddRequest) returns (int32);" +:+ nl;
            "  rpc Echo(string) returns (string);" +:+ nl]
           GRPCVisitor.new).
  - reflexivity.
  - reflexivity.
  - intros oper _. reflexivity.
  - vm_compute. reflexivity.
Defined.

(** X14: when the handler filter decides by configuration and role, a
    fresh visitor returns from a document exactly when every included
    operation, every field of every message and of every queued request
    type, and every union member has its text; the file is then the
    header, the services, the messages, the enums, the unions and the
    request messages, in this order, each group in declaration order, and
    the queue holds the request types.  In every other case the traversal
    throws. *)
Theorem document_emitted_iff {helpers : Codegen} context doc :
  (∀ c c', Context.config c = Context.config c' →
           Context.role c = Context.role c' →
           shouldIncludeHandler c = shouldIncludeHandler c') →
  (returns (Document_accept doc context GRPCVisitor.new) = true
   ↔ is_Some (documentText context doc)) ∧
  (∀ text, documentText context doc = Some text →
     Document_accept doc context GRPCVisitor.new
     = Done tt (GRPCVisitor.mk text (requestedByDocument context doc))).
Proof.
  intros Hfilter. split; [split|].
  - by apply Document_accept_returns.
  - intros [text Htext]. by rewrite (Document_accept_text Hfilter context doc text).
  - intros text. by apply Document_accept_text.
Qed.

Lemma document_emitted_iff_witness :
  Document_accept (helpers := Sample.codegen)
    Sample.document Sample.context GRPCVisitor.new
  = Done tt (GRPCVisitor.mk
      ("syntax = " +:+ dquote +:+ "proto3" +:+ dquote +:+ ";" +:+ nl +:+ nl +:+
       "package pkg.demo;" +:+ nl +:+ nl +:+
       "service Calculator {" +:+ nl +:+
       "  rpc Add(AddRequest) returns (int32);" +:+ nl +:+
       "  rpc Echo(string) returns (string);" +:+ nl +:+
       "}" +:+ nl +:+ nl +:+
       "message Point {" +:+ nl +:+
       "  double x = 1;" +:+ nl +:+
       "  optional double y = 2;" +:+ nl +:+
       "}" +:+ nl +:+ nl +:+
       "message Shape {" +:+ nl +:+
       "  oneof oneof {" +:+ nl +:+
       "    point point_value = 1;" +:+ nl +:+
       "    string string_value = 2;" +:+ nl +:+
       "  }" +:+ nl +:+
       "}" +:+ nl +:+ nl +:+
       "// Request for the Add operation." +:+ nl +:+
       "message AddRequest {" +:+ nl +:+
       "  int32 a = 1;" +:+ nl +:+
       "  int32 b = 2;" +:+ nl +:+
       "}" +:+ nl +:+ nl)
      (requestedByDocument (helpers := Sample.codegen) Sample.context Sample.document)).
Proof.
  apply (proj2 (document_emitted_iff (helpers := Sample.codegen)
                  Sample.context Sample.document Sample_included_by_role)).
  vm_compute. reflexivity.
Defined.

(** ** One visitor, several documents *)

Section Reuse.
Context {helpers : Codegen}.

Lemma keeps_visitDocumentAfter context : keeps (visitDocumentAfter context).
Proof.
  unfold visitDocumentAfter. apply keeps_bind; [by intros ?|intros requests].
  apply keeps_forEach. intros request. apply keeps_TypeDefinition_accept.
Qed.

Lemma queues_Document_accept doc context :
  queues (Document_accept doc context) (requestedByDocument context doc).
Proof.
  unfold Document_accept.
  apply queues_before; [apply queues_Document_primary|].
  intros _. apply keeps_visitDocumentAfter.
Qed.

Lemma mapM_app_Some {A B} (f : A → option B) l1 l2 k1 k2 :
  mapM f l1 = Some k1 → mapM f l2 = Some k2 → mapM f (l1 ++ l2) = Some (k1 ++ k2).
Proof. rewrite !mapM_Some. apply Forall2_app. Qed.

End Reuse.

(** X15: the queue of request types is never emptied.  A visitor that has
    emitted one document and is used for a second one ends with the
    request types of both in its queue, and writes the request messages of
    the first document again, before those of the second, at the end of
    the second file. *)
Theorem queue_survives_documents {helpers : Codegen}
    doc1 doc2 context1 context2 s1 s2 :
  Document_accept doc1 context1 GRPCVisitor.new = Done tt s1 →
  Document_accept doc2 context2 s1 = Done tt s2 →
  GRPCVisitor.requestTypes s2
  = requestedByDocument context1 doc1 ++ requestedByDocument context2 doc2 ∧
  (∀ primary texts1 texts2,
     Document_primary doc2 context2 s1 = Done tt primary →
     mapM messageText (requestedByDocument context1 doc1) = Some texts1 →
     mapM messageText (requestedByDocument context2 doc2) = Some texts2 →
     s2 = emit primary (concatText texts1 +:+ concatText texts2)).
Proof.
  intros Hfirst Hsecond.
  pose proof (queues_Document_accept doc1 context1 _ _ _ Hfirst) as Hq1.
  pose proof (queues_Document_accept doc2 context2 _ _ _ Hsecond) as Hq2.
  cbn in Hq1. rewrite Hq1 in Hq2. split; [done|].
  intros primary texts1 texts2 Hprimary Htexts1 Htexts2.
  pose proof (queues_Document_primary doc2 context2 _ _ _ Hprimary) as Hq.
  rewrite Hq1 in Hq.
  unfold Document_accept in Hsecond.
  erewrite bind_Done in Hsecond; [|exact Hprimary].
  rewrite (visitDocumentAfter_run _ (texts1 ++ texts2)) in Hsecond.
  - injection Hsecond as <-. by rewrite concatText_app.
  - rewrite Hq. by apply mapM_app_Some.
Qed.

Lemma queue_survives_documents_witness :
  let s1 := state_of (Document_accept (helpers := Sample.codegen)
                        Sample.document Sample.context GRPCVisitor.new) in
  let s2 := state_of (Document_accept (helpers := Sample.codegen)
                        Cases.second Sample.context s1) in
  GRPCVisitor.requestTypes s2
  = requestedByDocument (helpers := Sample.codegen) Sample.context Sample.document ++
    requestedByDocument (helpers := Sample.codegen) Sample.context Cases.second.
Proof.
  intros s1 s2.
  apply (queue_survives_documents (helpers := Sample.codegen)
           Sample.document Cases.second Sample.context Sample.context s1 s2).
  - vm_compute. reflexivity.
  - vm_compute. reflexivity.
Defined.

(** ** The request types of a document *)

Section Requests.
Context {helpers : Codegen}.



End Requests.



